(** * A shallow embedding of [BitReaderBE] from [src/read.rs]

    The reader owns a byte source ([&mut io::Read]) and a
    [VecDeque<u32>] of buffered bit values.  The byte source is modelled
    as a byte slice ([&[u8]]), i.e. the list of bytes it still holds.
    Its [read_exact] either fills the whole destination with the next
    bytes, or, when fewer bytes are left than the destination holds,
    fails with [UnexpectedEof], writes nothing and drains the slice
    (the standard library's [impl Read for &[u8]]).

    Rust integer arithmetic depends on the build: with overflow checks
    (debug builds) an overflowing [+], [-], unary [-] or a shift by at
    least the bit width panics; without them (release builds) the result
    wraps and the shift amount is masked.  Both are modelled, selected by
    a [build] argument. *)

From Stdlib Require Import ZArith List Lia Bool Strings.Byte.
Import ListNotations.
Open Scope Z_scope.

(** ** Outcomes and the reader monad *)

Inductive io_error := UnexpectedEof.

(** What a call produces: a value, an [io::Error] propagated by [?],
    or a panic. *)
Inductive res (A : Type) : Type :=
| ROk (a : A)
| RErr (e : io_error)
| RPanic.
Arguments ROk {A} a.
Arguments RErr {A} e.
Arguments RPanic {A}.

(** [BitReaderBE { reader, buffer }]: the bytes left in the source and
    the buffered bits, front first. *)
Record reader := mkReader { source : list Byte.byte; buffer : list Z }.

Definition M (A : Type) : Type := reader -> res A * reader.

Definition ret {A} (a : A) : M A := fun st => (ROk a, st).

Definition bind {A B} (m : M A) (f : A -> M B) : M B := fun st =>
  match m st with
  | (ROk a, st') => f a st'
  | (RErr e, st') => (RErr e, st')
  | (RPanic, st') => (RPanic, st')
  end.

Notation "x <- m ;; k" := (bind m (fun x => k))
  (at level 61, m at next level, right associativity).
Notation "m ;;; k" := (bind m (fun _ => k))
  (at level 61, right associativity).

Definition get : M reader := fun st => (ROk st, st).

(** A pure computation that may panic (an arithmetic overflow check). *)
Definition lift {A} (o : option A) : M A := fun st =>
  match o with Some a => (ROk a, st) | None => (RPanic, st) end.

Definition unwrap {A} (o : option A) : M A := lift o.

(** ** Rust integer arithmetic *)

Inductive build := Debug | Release.

Definition wrap_u32 (z : Z) : Z := z mod 2 ^ 32.
Definition wrap_i32 (z : Z) : Z := (z + 2 ^ 31) mod 2 ^ 32 - 2 ^ 31.
Definition in_u32 (z : Z) : bool := (0 <=? z) && (z <? 2 ^ 32).
Definition in_i32 (z : Z) : bool := (- 2 ^ 31 <=? z) && (z <? 2 ^ 31).

(** An arithmetic result [exact] that must satisfy [ok]: a panic in a
    debug build, [wrapped] in a release build. *)
Definition checked (md : build) (ok : bool) (exact wrapped : Z) : option Z :=
  if ok then Some exact
  else match md with Debug => None | Release => Some wrapped end.

Definition add_u32 (md : build) (a b : Z) : option Z :=
  checked md (in_u32 (a + b)) (a + b) (wrap_u32 (a + b)).
Definition sub_u32 (md : build) (a b : Z) : option Z :=
  checked md (in_u32 (a - b)) (a - b) (wrap_u32 (a - b)).
Definition shl_u32 (md : build) (x s : Z) : option Z :=
  if s <? 32 then Some (wrap_u32 (Z.shiftl x s))
  else match md with
       | Debug => None
       | Release => Some (wrap_u32 (Z.shiftl x (Z.land s 31)))
       end.
Definition shl_i32 (md : build) (x s : Z) : option Z :=
  if s <? 32 then Some (wrap_i32 (Z.shiftl x s))
  else match md with
       | Debug => None
       | Release => Some (wrap_i32 (Z.shiftl x (Z.land s 31)))
       end.
Definition sub_i32 (md : build) (a b : Z) : option Z :=
  checked md (in_i32 (a - b)) (a - b) (wrap_i32 (a - b)).
Definition neg_i32 (md : build) (a : Z) : option Z :=
  checked md (in_i32 (- a)) (- a) (wrap_i32 (- a)).
(** [u as i32]. *)
Definition as_i32 (u : Z) : Z := wrap_i32 u.
(** [v as u8]. *)
Definition as_u8 (v : Z) : Byte.byte :=
  match Byte.of_N (Z.to_N (v mod 256)) with Some b => b | None => Byte.x00 end.

Definition bval (b : Byte.byte) : Z := Z.of_N (Byte.to_N b).

(** ** The byte source *)

(** [read_exact] of a destination of [n] bytes on a [&[u8]] source: on
    failure the destination is left alone and the slice is emptied. *)
Definition read_exact (n : nat) : M (list Byte.byte) := fun st =>
  if Nat.leb n (length (source st))
  then (ROk (firstn n (source st)), mkReader (skipn n (source st)) (buffer st))
  else (RErr UnexpectedEof, mkReader [] (buffer st)).

(** ** [VecDeque] operations on the buffer *)

Definition push_back (x : Z) : M unit := fun st =>
  (ROk tt, mkReader (source st) (buffer st ++ [x])).

Definition pop_front : M (option Z) := fun st =>
  match buffer st with
  | [] => (ROk None, st)
  | x :: r => (ROk (Some x), mkReader (source st) r)
  end.

Definition buffer_clear : M unit := fun st => (ROk tt, mkReader (source st) []).

(** ** [BitReaderBE] *)

Definition new (src : list Byte.byte) : reader := mkReader src [].

(** The body of [if self.buffer.len() == 0 { ... }] in [next_bit]. *)
Definition refill : M unit :=
  buf <- read_exact 1 ;;
  let b := bval (nth 0 buf Byte.x00) in
  push_back (Z.land (Z.shiftr b 7) 1) ;;;
  push_back (Z.land (Z.shiftr b 6) 1) ;;;
  push_back (Z.land (Z.shiftr b 5) 1) ;;;
  push_back (Z.land (Z.shiftr b 4) 1) ;;;
  push_back (Z.land (Z.shiftr b 3) 1) ;;;
  push_back (Z.land (Z.shiftr b 2) 1) ;;;
  push_back (Z.land (Z.shiftr b 1) 1) ;;;
  push_back (Z.land (Z.shiftr b 0) 1).

Definition next_bit : M Z :=
  st <- get ;;
  (if Nat.eqb (length (buffer st)) 0 then refill else ret tt) ;;;
  o <- pop_front ;;
  unwrap o.

(** [while bits > 0 { acc = (acc << 1) | self.next_bit()?; bits -= 1; }];
    the shift is by 1, within the width in every build, and drops the bit
    shifted out of the [u32]. *)
Fixpoint read_loop (bits : nat) (acc : Z) : M Z :=
  match bits with
  | O => ret acc
  | S bits' =>
      bit <- next_bit ;;
      read_loop bits' (Z.lor (wrap_u32 (Z.shiftl acc 1)) bit)
  end.

Definition read (bits : Z) : M Z := read_loop (Z.to_nat bits) 0.

(** The closure passed to [map] in [read_signed]. *)
Definition signed_of (md : build) (bits u : Z) : option Z :=
  match sub_u32 md bits 1 with
  | None => None
  | Some p =>
      match shl_u32 md 1 p with
      | None => None
      | Some m =>
          if Z.land u m =? 0 then Some (as_i32 u)
          else match shl_i32 md 1 bits with
               | None => None
               | Some t =>
                   match sub_i32 md t (as_i32 u) with
                   | None => None
                   | Some d => neg_i32 md d
                   end
               end
      end
  end.

Definition read_signed (md : build) (bits : Z) : M Z :=
  u <- read bits ;; lift (signed_of md bits u).

Definition skip (bits : Z) : M unit :=
  _ <- read bits ;; ret tt.

(** [read_bytes] writes into [buf: &mut [u8]]; its contents after the
    call are returned next to the outcome and the reader. *)
Fixpoint read_bytes_loop (buf : list Byte.byte) (st : reader)
  : res unit * reader * list Byte.byte :=
  match buf with
  | [] => (ROk tt, st, [])
  | b :: rest =>
      match read 8 st with
      | (ROk v, st1) =>
          let '(r, st2, rest') := read_bytes_loop rest st1 in
          (r, st2, as_u8 v :: rest')
      | (RErr e, st1) => (RErr e, st1, b :: rest)
      | (RPanic, st1) => (RPanic, st1, b :: rest)
      end
  end.

Definition byte_aligned (st : reader) : bool := Nat.eqb (length (buffer st)) 0.

Definition byte_align (st : reader) : reader := snd (buffer_clear st).

Definition read_bytes (buf : list Byte.byte) (st : reader)
  : res unit * reader * list Byte.byte :=
  if byte_aligned st then
    match read_exact (length buf) st with
    | (ROk bs, st1) => (ROk tt, st1, bs)
    | (RErr e, st1) => (RErr e, st1, buf)
    | (RPanic, st1) => (RPanic, st1, buf)
    end
  else read_bytes_loop buf st.

(** The bits the reader can still deliver: the buffer, then the bytes
    left in the source. *)
Definition stream_len (st : reader) : nat :=
  (length (buffer st) + 8 * length (source st))%nat.

(** [let mut acc = 0; while self.read(1)? != stop { acc += 1; }].  Every
    iteration consumes a bit, so [S (stream_len st)] iterations are
    enough for the loop to stop or fail; the fuel never runs out. *)
Fixpoint unary_loop (md : build) (stop : Z) (fuel : nat) (acc : Z) : M Z :=
  match fuel with
  | O => fun st => (RPanic, st)
  | S fuel' =>
      b <- read 1 ;;
      if negb (b =? stop) then
        acc' <- lift (add_u32 md acc 1) ;; unary_loop md stop fuel' acc'
      else ret acc
  end.

Definition read_unary0 (md : build) : M Z := fun st =>
  unary_loop md 0 (S (stream_len st)) 0 st.

Definition read_unary1 (md : build) : M Z := fun st =>
  unary_loop md 1 (S (stream_len st)) 0 st.

(** ** The stream read by the reader, as the spec describes it *)

(** The bits of a byte, from bit 7 down to bit 0. *)
Definition byte_bits (b : Byte.byte) : list Z :=
  map (fun i => Z.b2z (Z.testbit (bval b) i)) [7; 6; 5; 4; 3; 2; 1; 0].

(** The buffered bits, then the bits of each byte left in the source. *)
Definition stream (st : reader) : list Z :=
  buffer st ++ flat_map byte_bits (source st).

(** The unsigned integer whose binary digits, most significant first,
    are [l]. *)
Definition msb_value (l : list Z) : Z :=
  fold_left (fun acc x => 2 * acc + x) l 0.

Definition is_bit (x : Z) : Prop := x = 0 \/ x = 1.

(** The buffer invariant: fewer than 8 entries, each a bit value. *)
Definition wf (st : reader) : Prop :=
  Forall is_bit (buffer st) /\ (length (buffer st) < 8)%nat.

(** The bytes [read(8)] decodes from the first [n] groups of 8 bits of
    [l], each stored with [as u8]. *)
Fixpoint chunk_bytes (n : nat) (l : list Z) : list Byte.byte :=
  match n with
  | O => []
  | S n' => as_u8 (msb_value (firstn 8 l)) :: chunk_bytes n' (skipn 8 l)
  end.

(** [acc += 1] performed [k] times on the [u32] counter of the unary
    readers. *)
Fixpoint count_up (md : build) (k : nat) (acc : Z) : option Z :=
  match k with
  | O => Some acc
  | S k' => match add_u32 md acc 1 with
            | Some a => count_up md k' a
            | None => None
            end
  end.

(** The reading operations of [BitRead], as a caller issues them. *)
Inductive read_op :=
| OpRead (bits : Z)
| OpReadSigned (bits : Z)
| OpSkip (bits : Z)
| OpReadBytes (buf : list Byte.byte)
| OpReadUnary0
| OpReadUnary1.

(** The reader after a successful call; [None] if the call failed or
    panicked. *)
Definition run_op (md : build) (o : read_op) (st : reader) : option reader :=
  let ok {A} (r : res A * reader) :=
    match r with (ROk _, st') => Some st' | _ => None end in
  match o with
  | OpRead b => ok (read b st)
  | OpReadSigned b => ok (read_signed md b st)
  | OpSkip b => ok (skip b st)
  | OpReadBytes buf =>
      match read_bytes buf st with (ROk _, st', _) => Some st' | _ => None end
  | OpReadUnary0 => ok (read_unary0 md st)
  | OpReadUnary1 => ok (read_unary1 md st)
  end.

Fixpoint run_ops (md : build) (os : list read_op) (st : reader) : option reader :=
  match os with
  | [] => Some st
  | o :: os' => match run_op md o st with
                | Some st' => run_ops md os' st'
                | None => None
                end
  end.

(** ** Basic facts *)

Lemma shiftr_land_1 (x i : Z) :
  0 <= i -> Z.land (Z.shiftr x i) 1 = Z.b2z (Z.testbit x i).
Proof.
  intros Hi.
  change 1 with (Z.ones 1).
  rewrite Z.land_ones by lia.
  rewrite Z.shiftr_div_pow2 by lia.
  rewrite Z.testbit_spec' by lia.
  reflexivity.
Qed.

Lemma lor_double_bit (a x : Z) :
  is_bit x -> Z.lor (2 * a) x = 2 * a + x.
Proof.
  intros [-> | ->].
  - rewrite Z.lor_0_r; lia.
  - assert (H : Z.land (2 * a) 1 = 0).
    { change 1 with (Z.ones 1). rewrite Z.land_ones by lia.
      rewrite Z.pow_1_r, Z.mul_comm, Z.mod_mul; lia. }
    rewrite <- Z.lxor_lor by exact H.
    rewrite <- Z.add_nocarry_lxor by exact H.
    reflexivity.
Qed.

Lemma byte_bits_length (b : Byte.byte) : length (byte_bits b) = 8%nat.
Proof. reflexivity. Qed.

Lemma b2z_is_bit (t : bool) : is_bit (Z.b2z t).
Proof. destruct t; [right | left]; reflexivity. Qed.

Lemma byte_bits_are_bits (b : Byte.byte) : Forall is_bit (byte_bits b).
Proof.
  unfold byte_bits; simpl.
  repeat (constructor; [apply b2z_is_bit |]); constructor.
Qed.

Lemma stream_length (st : reader) :
  length (stream st) = stream_len st.
Proof.
  destruct st as [src buf]; unfold stream, stream_len; cbn [buffer source].
  rewrite length_app; f_equal.
  induction src as [|b src IH]; [reflexivity|].
  cbn [flat_map length]; rewrite length_app, byte_bits_length, IH; lia.
Qed.

Lemma stream_nil (st : reader) :
  stream st = [] -> st = mkReader [] [].
Proof.
  destruct st as [[|b src] [|x buf]]; unfold stream; simpl;
    try discriminate; auto.
Qed.

(** ** [next_bit] *)

Lemma next_bit_pop (st : reader) (x : Z) (r : list Z) :
  buffer st = x :: r -> next_bit st = (ROk x, mkReader (source st) r).
Proof. destruct st as [src buf]; cbn; intros ->; reflexivity. Qed.

Lemma next_bit_refill (b : Byte.byte) (s : list Byte.byte) :
  next_bit (mkReader (b :: s) []) =
  (ROk (hd 0 (byte_bits b)), mkReader s (tl (byte_bits b))).
Proof.
  unfold byte_bits; cbn [map hd tl].
  rewrite <- !shiftr_land_1 by lia.
  reflexivity.
Qed.

Lemma next_bit_eof : next_bit (mkReader [] []) = (RErr UnexpectedEof, mkReader [] []).
Proof. reflexivity. Qed.

Lemma next_bit_stream (st : reader) (x : Z) (l : list Z) :
  stream st = x :: l ->
  exists st', next_bit st = (ROk x, st') /\ stream st' = l /\ (wf st -> wf st').
Proof.
  destruct st as [src [|y buf]]; unfold stream; cbn [buffer source app].
  - destruct src as [|b src]; cbn [flat_map]; [discriminate|].
    intros H. exists (mkReader src (tl (byte_bits b))).
    rewrite next_bit_refill.
    unfold byte_bits in H |- *; cbn [map app hd tl] in H |- *.
    injection H as Hx Hl; subst x l. split; [reflexivity|]. split; [reflexivity|].
    intros _. split.
    + cbn [buffer]. repeat (constructor; [apply b2z_is_bit |]); constructor.
    + cbn; lia.
  - intros H; injection H as -> <-.
    exists (mkReader src buf).
    rewrite (next_bit_pop _ x buf) by reflexivity.
    split; [reflexivity|]. split; [reflexivity|].
    intros [Hb Hl]; cbn [buffer length] in *. inversion Hb; subst.
    split; cbn [buffer]; [assumption | lia].
Qed.

(** ** [read] *)

(** One step of the accumulator: [(acc << 1) | bit]. *)
Definition shift_in (acc bit : Z) : Z := Z.lor (wrap_u32 (Z.shiftl acc 1)) bit.

Lemma read_loop_ok (n : nat) (acc : Z) (st : reader) :
  wf st -> (n <= length (stream st))%nat ->
  exists st', read_loop n acc st =
              (ROk (fold_left shift_in (firstn n (stream st)) acc), st')
           /\ stream st' = skipn n (stream st) /\ wf st'.
Proof.
  revert acc st; induction n as [|n IH]; intros acc st Hwf Hn.
  - exists st; auto.
  - destruct (stream st) as [|x l] eqn:Hs; cbn in Hn; [lia|].
    destruct (next_bit_stream st x l Hs) as (st1 & Hnb & Hs1 & Hwf1).
    destruct (IH (shift_in acc x) st1 (Hwf1 Hwf)) as (st2 & Hr & Hs2 & Hwf2);
      [rewrite Hs1; lia|].
    exists st2. cbn [read_loop firstn skipn fold_left].
    unfold bind at 1. rewrite Hnb. rewrite Hs1 in Hr, Hs2. auto.
Qed.

Lemma read_loop_err (n : nat) (acc : Z) (st : reader) :
  (length (stream st) < n)%nat ->
  read_loop n acc st = (RErr UnexpectedEof, mkReader [] []).
Proof.
  revert acc st; induction n as [|n IH]; intros acc st Hn; [lia|].
  destruct (stream st) as [|x l] eqn:Hs.
  - apply stream_nil in Hs; subst st. reflexivity.
  - destruct (next_bit_stream st x l Hs) as (st1 & Hnb & Hs1 & _).
    cbn [read_loop]. unfold bind at 1. rewrite Hnb.
    apply IH. rewrite Hs1. cbn [length] in Hn. lia.
Qed.

Lemma fold_shift_in (l : list Z) (acc : Z) (j : nat) :
  Forall is_bit l -> 0 <= acc < 2 ^ Z.of_nat j -> (j + length l <= 32)%nat ->
  fold_left shift_in l acc = fold_left (fun a x => 2 * a + x) l acc.
Proof.
  revert acc j; induction l as [|x l IH]; intros acc j Hl Hacc Hj; [reflexivity|].
  inversion Hl as [|? ? Hx Hl']; subst. cbn [fold_left length] in *.
  assert (Hpow : 2 ^ Z.of_nat j <= 2 ^ 31)
    by (apply Z.pow_le_mono_r; lia).
  assert (Hstep : shift_in acc x = 2 * acc + x).
  { unfold shift_in, wrap_u32. rewrite Z.shiftl_mul_pow2 by lia.
    rewrite Z.mod_small by (change (2 ^ 32) with (2 * 2 ^ 31); lia).
    rewrite Z.pow_1_r, Z.mul_comm. apply lor_double_bit; exact Hx. }
  rewrite Hstep. apply (IH _ (S j)); [exact Hl' | | lia].
  rewrite Nat2Z.inj_succ, Z.pow_succ_r by lia.
  destruct Hx as [-> | ->]; lia.
Qed.

Lemma stream_bits (st : reader) : wf st -> Forall is_bit (stream st).
Proof.
  intros [Hb _]. unfold stream. apply Forall_app; split; [exact Hb|].
  induction (source st) as [|b src IH]; cbn [flat_map]; [constructor|].
  apply Forall_app; split; [apply byte_bits_are_bits | exact IH].
Qed.

Lemma read_stream (n : nat) (acc : Z) (st : reader) :
  wf st ->
  stream (snd (read_loop n acc st)) = skipn n (stream st) /\
  wf (snd (read_loop n acc st)).
Proof.
  intros Hwf.
  destruct (Nat.le_gt_cases n (length (stream st))) as [Hn | Hn].
  - destruct (read_loop_ok n acc st Hwf Hn) as (st' & -> & ? & ?); auto.
  - rewrite read_loop_err by exact Hn. cbn [snd]. split.
    + symmetry; apply skipn_all2; lia.
    + split; cbn; [constructor | lia].
Qed.

Lemma wf_new (src : list Byte.byte) : wf (new src).
Proof. split; cbn; [constructor | lia]. Qed.

Lemma forall_firstn {A} (P : A -> Prop) (n : nat) (l : list A) :
  Forall P l -> Forall P (firstn n l).
Proof.
  intros H. rewrite <- (firstn_skipn n l) in H.
  apply Forall_app in H; tauto.
Qed.

(** * Claims *)

(** C1: for [1 <= b <= 32], [read b] returns the unsigned integer whose
    binary digits, most significant first, are the next [b] bits of the
    stream (the buffered bits, then each source byte from bit 7 down to
    bit 0), and it consumes exactly those bits. *)
Theorem read_msb_first (b : Z) (st : reader) :
  1 <= b <= 32 -> wf st -> (Z.to_nat b <= length (stream st))%nat ->
  fst (read b st) = ROk (msb_value (firstn (Z.to_nat b) (stream st))) /\
  stream (snd (read b st)) = skipn (Z.to_nat b) (stream st).
Proof.
  intros Hb Hwf Hn. unfold read.
  destruct (read_loop_ok (Z.to_nat b) 0 st Hwf Hn) as (st' & -> & Hs & _).
  cbn [fst snd]. split; [|exact Hs]. f_equal.
  unfold msb_value. apply (fold_shift_in _ _ 0).
  - apply forall_firstn, stream_bits, Hwf.
  - cbn; lia.
  - rewrite length_firstn; lia.
Qed.

Lemma read_msb_first_witness :
  fst (read 4 (new [Byte.x3c])) = ROk 3 /\
  fst (read 12 (new [Byte.xa5; Byte.xf0])) =
    ROk (msb_value (firstn 12 (stream (new [Byte.xa5; Byte.xf0])))).
Proof.
  split.
  - rewrite (proj1 (read_msb_first 4 (new [Byte.x3c]) ltac:(lia) (wf_new _)
                      ltac:(vm_compute; lia))).
    reflexivity.
  - exact (proj1 (read_msb_first 12 (new [Byte.xa5; Byte.xf0]) ltac:(lia)
                    (wf_new _) ltac:(vm_compute; lia))).
Defined.

(** C2 (code defect): [read_signed 32] does not reconstruct a negative
    value.  On the stream of four [0xff] bytes [read 32] returns
    [0xffffffff]; [read_signed 32] panics with overflow checks on
    ([1 << 32] on an [i32]) and returns [-2] instead of [-1] with them
    off (the shift amount is masked to 0).  With overflow checks on,
    [read_signed 31] also panics on a negative value, as
    [(1 << 31) - u] overflows. *)
Theorem read_signed_width_32 :
  fst (read 32 (new [Byte.xff; Byte.xff; Byte.xff; Byte.xff])) = ROk 4294967295 /\
  fst (read_signed Debug 32 (new [Byte.xff; Byte.xff; Byte.xff; Byte.xff])) = RPanic /\
  fst (read_signed Release 32 (new [Byte.xff; Byte.xff; Byte.xff; Byte.xff])) = ROk (-2) /\
  fst (read_signed Debug 31 (new [Byte.xff; Byte.xff; Byte.xff; Byte.xff])) = RPanic /\
  fst (read_signed Release 31 (new [Byte.xff; Byte.xff; Byte.xff; Byte.xff])) = ROk (-1).
Proof. vm_compute. repeat split. Qed.

(** ** Single-bit reads and the unary loop *)

Lemma read1_stream (st : reader) (x : Z) (l : list Z) :
  stream st = x :: l ->
  exists st', read 1 st = (ROk x, st') /\ stream st' = l /\ (wf st -> wf st').
Proof.
  intros Hs. destruct (next_bit_stream st x l Hs) as (st' & Hnb & Hs' & Hwf).
  exists st'. unfold read. change (Z.to_nat 1) with 1%nat. cbn [read_loop].
  unfold bind. rewrite Hnb. auto.
Qed.

Lemma read1_eof : read 1 (mkReader [] []) = (RErr UnexpectedEof, mkReader [] []).
Proof. reflexivity. Qed.

Lemma read1_pop (src : list Byte.byte) (x : Z) (r : list Z) :
  read 1 (mkReader src (x :: r)) = (ROk x, mkReader src r).
Proof. reflexivity. Qed.

Lemma add_u32_small (md : build) (a : Z) :
  0 <= a -> a + 1 < 2 ^ 32 -> add_u32 md a 1 = Some (a + 1).
Proof.
  intros H1 H2. unfold add_u32, checked, in_u32.
  replace (0 <=? a + 1) with true by (symmetry; apply Z.leb_le; lia).
  replace (a + 1 <? 2 ^ 32) with true by (symmetry; apply Z.ltb_lt; lia).
  reflexivity.
Qed.

Lemma unary_loop_eof (md : build) (stop : Z) (buf : list Z) :
  forall fuel acc,
  Forall (fun x => x <> stop) buf -> (length buf < fuel)%nat ->
  0 <= acc -> acc + Z.of_nat (length buf) < 2 ^ 32 ->
  unary_loop md stop fuel acc (mkReader [] buf) = (RErr UnexpectedEof, mkReader [] []).
Proof.
  induction buf as [|x buf IH]; intros fuel acc Hne Hf Hacc Hlt;
    (destruct fuel as [|fuel]; [cbn in Hf; lia|]).
  - reflexivity.
  - inversion Hne as [|? ? Hx Hne']; subst.
    cbn [length] in Hf, Hlt.
    cbn [unary_loop]. unfold bind at 1. rewrite read1_pop.
    replace (x =? stop) with false by (symmetry; apply Z.eqb_neq; exact Hx).
    cbn [negb]. unfold bind at 1.
    unfold lift at 1. rewrite add_u32_small by lia.
    apply IH; [exact Hne' | lia | lia | lia].
Qed.

Lemma read_bytes_eof (buf : list Byte.byte) (st : reader) :
  wf st -> source st = [] -> buf <> [] ->
  fst (fst (read_bytes buf st)) = RErr UnexpectedEof /\
  byte_aligned (snd (fst (read_bytes buf st))) = true.
Proof.
  destruct st as [src sbuf]; cbn [source]; intros [_ Hl] -> Hne; cbn [buffer] in Hl.
  unfold read_bytes.
  destruct (byte_aligned (mkReader [] sbuf)) eqn:Ha.
  - unfold read_exact; cbn [source length].
    destruct buf as [|b buf]; [congruence|]. cbn. split; [reflexivity | exact Ha].
  - destruct buf as [|b buf]; [congruence|]. cbn [read_bytes_loop].
    unfold read. rewrite read_loop_err; [split; reflexivity|].
    unfold stream; cbn [buffer source flat_map]. rewrite app_nil_r.
    change (Z.to_nat 8) with 8%nat. exact Hl.
Qed.

(** C3 (as stated, refuted): with the source exhausted, bits still in the
    buffer are delivered, and a failing read drains the buffer first, so a
    reader that was not byte-aligned is aligned after the failure.  The
    reader below holds the bits [1; 0; 1] of [0xad] and an empty source. *)
Lemma exhausted_source_counterexample :
  source (snd (read 5 (new [Byte.xad]))) = [] /\
  buffer (snd (read 5 (new [Byte.xad]))) = [1; 0; 1] /\
  fst (read 1 (snd (read 5 (new [Byte.xad])))) = ROk 1 /\
  byte_aligned (snd (read 5 (new [Byte.xad]))) = false /\
  fst (read 5 (snd (read 5 (new [Byte.xad])))) = RErr UnexpectedEof /\
  byte_aligned (snd (read 5 (snd (read 5 (new [Byte.xad]))))) = true.
Proof. vm_compute. repeat split. Qed.

(** C3 (amended): with the source exhausted, the bits still in the
    buffer are delivered first: [read] and [skip] of at most the buffered
    number of bits succeed.  Every read operation that needs more bits
    than the buffer holds fails with the I/O error: [read], [read_signed]
    and [skip] of more bits than are buffered, [read_bytes] of a
    non-empty destination, and [read_unary0] / [read_unary1] when no stop
    bit is buffered.  Each such failure leaves the reader with an empty
    buffer, i.e. byte-aligned, whatever it was before. *)
Theorem exhausted_source_fails (md : build) (st : reader) :
  wf st -> source st = [] ->
  (forall b, (length (buffer st) < Z.to_nat b)%nat ->
     read b st = (RErr UnexpectedEof, mkReader [] []) /\
     read_signed md b st = (RErr UnexpectedEof, mkReader [] []) /\
     skip b st = (RErr UnexpectedEof, mkReader [] [])) /\
  (forall buf, buf <> [] ->
     fst (fst (read_bytes buf st)) = RErr UnexpectedEof /\
     byte_aligned (snd (fst (read_bytes buf st))) = true) /\
  (Forall (fun x => x <> 0) (buffer st) ->
     read_unary0 md st = (RErr UnexpectedEof, mkReader [] [])) /\
  (Forall (fun x => x <> 1) (buffer st) ->
     read_unary1 md st = (RErr UnexpectedEof, mkReader [] [])) /\
  byte_aligned (mkReader [] []) = true /\
  (forall b, (Z.to_nat b <= length (buffer st))%nat ->
     (exists v, fst (read b st) = ROk v) /\ fst (skip b st) = ROk tt).
Proof.
  intros Hwf Hsrc.
  assert (Hlen : length (stream st) = length (buffer st)).
  { rewrite stream_length. unfold stream_len. rewrite Hsrc. cbn; lia. }
  assert (Hst : st = mkReader [] (buffer st)).
  { destruct st; cbn in *; congruence. }
  split; [|split; [|split; [|split; [|split]]]].
  - intros b Hb.
    assert (Hr : read b st = (RErr UnexpectedEof, mkReader [] [])).
    { unfold read. apply read_loop_err. lia. }
    unfold read_signed, skip, bind. rewrite Hr. auto.
  - intros buf Hne. apply read_bytes_eof; assumption.
  - intros Hne. unfold read_unary0. unfold stream_len. rewrite Hsrc, Hst.
    cbn [buffer source length]. apply unary_loop_eof; [exact Hne | lia | lia |].
    destruct Hwf as [_ Hl]. lia.
  - intros Hne. unfold read_unary1. unfold stream_len. rewrite Hsrc, Hst.
    cbn [buffer source length]. apply unary_loop_eof; [exact Hne | lia | lia |].
    destruct Hwf as [_ Hl]. lia.
  - reflexivity.
  - intros b Hb. unfold skip, read, bind.
    destruct (read_loop_ok (Z.to_nat b) 0 st Hwf ltac:(lia)) as (st' & -> & _ & _).
    split; [eexists; reflexivity | reflexivity].
Qed.

Lemma exhausted_source_fails_witness :
  read_unary0 Debug (snd (read 5 (new [Byte.xaf]))) =
    (RErr UnexpectedEof, mkReader [] []) /\
  read 4 (snd (read 5 (new [Byte.xaf]))) = (RErr UnexpectedEof, mkReader [] []) /\
  exists v, fst (read 3 (snd (read 5 (new [Byte.xaf])))) = ROk v.
Proof.
  assert (Hwf : wf (snd (read 5 (new [Byte.xaf])))) by (vm_compute; split; repeat constructor; lia).
  assert (Hsrc : source (snd (read 5 (new [Byte.xaf]))) = []) by reflexivity.
  destruct (exhausted_source_fails Debug _ Hwf Hsrc) as (Hr & _ & Hu0 & _ & _ & Hok).
  split; [|split].
  - apply Hu0. vm_compute. repeat constructor; discriminate.
  - apply Hr. vm_compute. lia.
  - apply Hok. vm_compute. lia.
Defined.

(** C4: [skip n] is [read n] with the value discarded: the same reader
    afterwards, success exactly when [read n] succeeds, and the same
    error or panic otherwise. *)
Theorem skip_is_discarded_read (bits : Z) (st : reader) :
  snd (skip bits st) = snd (read bits st) /\
  (fst (skip bits st) = ROk tt <-> exists v, fst (read bits st) = ROk v) /\
  (forall e, fst (skip bits st) = RErr e <-> fst (read bits st) = RErr e) /\
  (fst (skip bits st) = RPanic <-> fst (read bits st) = RPanic).
Proof.
  unfold skip, bind, ret.
  destruct (read bits st) as [[v | e | ] st']; cbn [fst snd];
    repeat split; intros; try discriminate;
    repeat match goal with H : exists _, _ |- _ => destruct H end;
    try congruence; eauto.
Qed.

(** ** Whole bytes *)

Lemma read8_byte (b : Byte.byte) (s : list Byte.byte) :
  read 8 (mkReader (b :: s) []) = (ROk (bval b), mkReader s []).
Proof. destruct b; reflexivity. Qed.

Lemma as_u8_bval (b : Byte.byte) : as_u8 (bval b) = b.
Proof. destruct b; reflexivity. Qed.

Lemma read_bytes_loop_aligned (buf src : list Byte.byte) :
  read_bytes_loop buf (mkReader src []) =
  if Nat.leb (length buf) (length src)
  then (ROk tt, mkReader (skipn (length buf) src) [], firstn (length buf) src)
  else (RErr UnexpectedEof, mkReader [] [], src ++ skipn (length src) buf).
Proof.
  revert src; induction buf as [|b0 rest IH]; intros src; [reflexivity|].
  destruct src as [|b s].
  - reflexivity.
  - cbn [read_bytes_loop]. rewrite read8_byte, IH, as_u8_bval.
    cbn [length Nat.leb skipn firstn app].
    destruct (Nat.leb (length rest) (length s)); reflexivity.
Qed.

(** C5 (as stated, refuted): on a byte-aligned reader whose source
    holds one byte, reading two bytes fails either way and drains the
    reader either way, but the bulk read stores nothing while [read(8)]
    per byte has stored the first byte. *)
Lemma read_bytes_aligned_counterexample :
  read_bytes [Byte.x00; Byte.x00] (new [Byte.xab]) =
    (RErr UnexpectedEof, mkReader [] [], [Byte.x00; Byte.x00]) /\
  read_bytes_loop [Byte.x00; Byte.x00] (new [Byte.xab]) =
    (RErr UnexpectedEof, mkReader [] [], [Byte.xab; Byte.x00]).
Proof. split; reflexivity. Qed.

(** C5 (amended): on a byte-aligned reader, [read_bytes buf] succeeds
    exactly when calling [read(8)] once per destination byte and storing
    each result ([read_bytes_loop], the non-aligned path) succeeds; on
    success both give the same destination contents and the same reader.
    On failure both fail with the I/O error and leave the same reader
    (source drained, buffer empty); the bulk read leaves the destination
    as it was, while the per-byte path has stored the bytes the source
    still had at the front of the destination. *)
Theorem read_bytes_aligned_bytewise (buf : list Byte.byte) (st : reader) :
  byte_aligned st = true ->
  (fst (fst (read_bytes buf st)) = ROk tt <->
   fst (fst (read_bytes_loop buf st)) = ROk tt) /\
  (fst (fst (read_bytes buf st)) = ROk tt ->
   read_bytes buf st = read_bytes_loop buf st) /\
  (fst (fst (read_bytes buf st)) <> ROk tt ->
   fst (fst (read_bytes buf st)) = RErr UnexpectedEof /\
   fst (fst (read_bytes_loop buf st)) = RErr UnexpectedEof /\
   snd (fst (read_bytes buf st)) = snd (fst (read_bytes_loop buf st)) /\
   snd (fst (read_bytes buf st)) = mkReader [] [] /\
   snd (read_bytes buf st) = buf /\
   snd (read_bytes_loop buf st) = source st ++ skipn (length (source st)) buf).
Proof.
  destruct st as [src sbuf]. unfold byte_aligned; cbn [buffer source].
  intros Ha. destruct sbuf; [|discriminate].
  rewrite read_bytes_loop_aligned.
  unfold read_bytes; cbn [byte_aligned buffer length Nat.eqb].
  unfold read_exact; cbn [source buffer].
  destruct (Nat.leb (length buf) (length src)); cbn [fst snd].
  - repeat split; intros; try reflexivity; congruence.
  - repeat split; intros; try reflexivity; discriminate.
Qed.

Lemma read_bytes_aligned_bytewise_witness :
  read_bytes [Byte.x00; Byte.x00] (new [Byte.x12; Byte.x34; Byte.x56]) =
  read_bytes_loop [Byte.x00; Byte.x00] (new [Byte.x12; Byte.x34; Byte.x56]).
Proof.
  apply (read_bytes_aligned_bytewise [Byte.x00; Byte.x00]
           (new [Byte.x12; Byte.x34; Byte.x56]) eq_refl).
  reflexivity.
Defined.

(** ** Unary codes *)

Lemma count_up_ok (md : build) (k : nat) (acc : Z) :
  0 <= acc -> acc + Z.of_nat k < 2 ^ 32 -> count_up md k acc = Some (acc + Z.of_nat k).
Proof.
  revert acc; induction k as [|k IH]; intros acc H1 H2.
  - cbn; f_equal; lia.
  - cbn [count_up]. rewrite add_u32_small by lia.
    rewrite IH by lia. f_equal; lia.
Qed.

Lemma count_up_last (md : build) (k : nat) (acc : Z) :
  count_up md (k + 1) acc =
  match count_up md k acc with Some a => add_u32 md a 1 | None => None end.
Proof.
  revert acc; induction k as [|k IH]; intros acc; cbn [count_up Nat.add].
  - destruct (add_u32 md acc 1); reflexivity.
  - destruct (add_u32 md acc 1); [apply IH | reflexivity].
Qed.

Lemma unary_loop_run (md : build) (stop other : Z) (k : nat) :
  forall fuel acc st rest,
  wf st -> stream st = repeat other k ++ stop :: rest -> other <> stop ->
  (k < fuel)%nat ->
  match count_up md k acc with
  | Some v => exists st', unary_loop md stop fuel acc st = (ROk v, st') /\
                          stream st' = rest /\ wf st'
  | None => fst (unary_loop md stop fuel acc st) = RPanic
  end.
Proof.
  induction k as [|k IH]; intros fuel acc st rest Hwf Hs Hne Hf;
    (destruct fuel as [|fuel]; [lia|]); cbn [repeat app] in Hs;
    destruct (read1_stream _ _ _ Hs) as (st1 & Hr & Hs1 & Hwf1).
  - assert (Hstep : unary_loop md stop (S fuel) acc st = (ROk acc, st1)).
    { cbn [unary_loop]. unfold bind at 1. rewrite Hr, Z.eqb_refl. reflexivity. }
    rewrite Hstep. cbn [count_up]. exists st1. auto.
  - assert (Hstep : unary_loop md stop (S fuel) acc st =
                    match add_u32 md acc 1 with
                    | Some a => unary_loop md stop fuel a st1
                    | None => (RPanic, st1)
                    end).
    { cbn [unary_loop]. unfold bind at 1. rewrite Hr.
      replace (other =? stop) with false by (symmetry; apply Z.eqb_neq; exact Hne).
      cbn [negb]. unfold bind at 1, lift at 1.
      destruct (add_u32 md acc 1); reflexivity. }
    rewrite Hstep. cbn [count_up].
    destruct (add_u32 md acc 1) as [a|].
    + apply IH; auto. lia.
    + reflexivity.
Qed.

Lemma flat_map_ff (n : nat) :
  flat_map byte_bits (repeat Byte.xff n) = repeat 1 (8 * n).
Proof.
  induction n as [|n IH]; [reflexivity|].
  cbn [repeat flat_map]. rewrite IH.
  replace (8 * S n)%nat with (8 + 8 * n)%nat by lia.
  rewrite repeat_app. reflexivity.
Qed.

(** [read_unary0] on [n] bytes [0xff] and a byte [0x00]: the counter is
    incremented [8 * n] times. *)
Lemma read_unary0_ones (md : build) (n : nat) :
  fst (read_unary0 md (new (repeat Byte.xff n ++ [Byte.x00]))) =
  match count_up md (8 * n) 0 with Some v => ROk v | None => RPanic end.
Proof.
  set (st := new (repeat Byte.xff n ++ [Byte.x00])).
  assert (Hs : stream st = repeat 1 (8 * n) ++ 0 :: repeat 0 7).
  { unfold st, new, stream; cbn [buffer source app].
    rewrite flat_map_app, flat_map_ff. reflexivity. }
  assert (Hlen : stream_len st = (8 * n + 8)%nat).
  { rewrite <- stream_length, Hs, length_app, repeat_length. cbn [length repeat]. lia. }
  unfold read_unary0. rewrite Hlen.
  pose proof (unary_loop_run md 0 1 (8 * n) (S (8 * n + 8)) 0 st (repeat 0 7)
                (wf_new _) Hs ltac:(discriminate) ltac:(lia)) as H.
  destruct (count_up md (8 * n) 0).
  - destruct H as (st' & -> & _). reflexivity.
  - exact H.
Qed.

Lemma count_up_2_32 (md : build) (n : nat) :
  Z.of_nat n = 2 ^ 29 -> count_up md (8 * n) 0 = add_u32 md (2 ^ 32 - 1) 1.
Proof.
  intros Hn.
  replace (8 * n)%nat with (Z.to_nat (2 ^ 32 - 1) + 1)%nat by lia.
  rewrite count_up_last, count_up_ok by (rewrite ?Z2Nat.id; lia).
  rewrite Z2Nat.id by lia. reflexivity.
Qed.

(** C6 (as stated, refuted): the unary counter is a [u32].  On [2^29]
    bytes [0xff] followed by [0x00] the stream starts with [2^32] 1-bits
    and a 0-bit, yet [read_unary0] panics on [acc += 1] with overflow
    checks on and returns 0 with them off. *)
Lemma read_unary0_counter_overflow :
  fst (read_unary0 Debug (new (repeat Byte.xff (Z.to_nat (2 ^ 29)) ++ [Byte.x00])))
    = RPanic /\
  fst (read_unary0 Release (new (repeat Byte.xff (Z.to_nat (2 ^ 29)) ++ [Byte.x00])))
    = ROk 0.
Proof.
  assert (Hn : Z.of_nat (Z.to_nat (2 ^ 29)) = 2 ^ 29) by (apply Z2Nat.id; lia).
  revert Hn. generalize (Z.to_nat (2 ^ 29)). intros n Hn.
  split; rewrite read_unary0_ones, (count_up_2_32 _ _ Hn); reflexivity.
Qed.

(** C6 (amended): if the next bits of the stream are [k < 2^32] 1-bits
    and a 0-bit, [read_unary0] returns [k] and consumes exactly those
    [k + 1] bits; symmetrically [read_unary1] on [k] 0-bits and a
    1-bit. *)
Theorem read_unary_counts (md : build) (st : reader) (k : nat) (rest : list Z) :
  wf st -> Z.of_nat k < 2 ^ 32 ->
  (stream st = repeat 1 k ++ 0 :: rest ->
     fst (read_unary0 md st) = ROk (Z.of_nat k) /\
     stream (snd (read_unary0 md st)) = rest) /\
  (stream st = repeat 0 k ++ 1 :: rest ->
     fst (read_unary1 md st) = ROk (Z.of_nat k) /\
     stream (snd (read_unary1 md st)) = rest).
Proof.
  intros Hwf Hk.
  assert (Hc : count_up md k 0 = Some (Z.of_nat k)) by (apply count_up_ok; lia).
  split; intros Hs;
    (assert (Hf : (k < S (stream_len st))%nat)
      by (rewrite <- stream_length, Hs, length_app, repeat_length; cbn [length]; lia)).
  - pose proof (unary_loop_run md 0 1 k _ 0 st rest Hwf Hs ltac:(discriminate) Hf) as H.
    rewrite Hc in H. destruct H as (st' & Hrun & Hs' & _).
    unfold read_unary0. rewrite Hrun. auto.
  - pose proof (unary_loop_run md 1 0 k _ 0 st rest Hwf Hs ltac:(discriminate) Hf) as H.
    rewrite Hc in H. destruct H as (st' & Hrun & Hs' & _).
    unfold read_unary1. rewrite Hrun. auto.
Qed.

Lemma read_unary_counts_witness :
  fst (read_unary0 Debug (new [Byte.xe0])) = ROk 3 /\
  fst (read_unary1 Debug (new [Byte.x20])) = ROk 2.
Proof.
  split.
  - exact (proj1 (proj1 (read_unary_counts Debug (new [Byte.xe0]) 3 [0; 0; 0; 0]
                           (wf_new _) ltac:(lia)) eq_refl)).
  - exact (proj1 (proj2 (read_unary_counts Debug (new [Byte.x20]) 2 [0; 0; 0; 0; 0]
                           (wf_new _) ltac:(lia)) eq_refl)).
Defined.

(** ** Every operation consumes a prefix of the stream *)

Ltac suffix_done := split; [assumption | eexists; eassumption].

Lemma flat_map_skipn (n : nat) (src : list Byte.byte) :
  flat_map byte_bits (skipn n src) = skipn (8 * n) (flat_map byte_bits src).
Proof.
  revert src; induction n as [|n IH]; intros src; [reflexivity|].
  destruct src as [|b src]; cbn [skipn flat_map].
  - rewrite skipn_nil. reflexivity.
  - rewrite IH. replace (8 * S n)%nat with (8 * n + 8)%nat by lia.
    rewrite <- skipn_skipn. f_equal.
Qed.

Lemma read_any (bits : Z) (st : reader) :
  wf st ->
  wf (snd (read bits st)) /\
  exists j, stream (snd (read bits st)) = skipn j (stream st).
Proof.
  intros Hwf. destruct (read_stream (Z.to_nat bits) 0 st Hwf) as [Hs Hw].
  unfold read. split; [exact Hw | eauto].
Qed.

Lemma read_signed_state (md : build) (bits : Z) (st : reader) :
  snd (read_signed md bits st) = snd (read bits st).
Proof.
  unfold read_signed, bind, lift.
  destruct (read bits st) as [[u | e |] st']; [destruct (signed_of md bits u)|..];
    reflexivity.
Qed.

Lemma skip_state (bits : Z) (st : reader) : snd (skip bits st) = snd (read bits st).
Proof. unfold skip, bind, ret. destruct (read bits st) as [[u | e |] st']; reflexivity. Qed.

Lemma suffix_trans (l : list Z) (j1 j2 : nat) (l1 l2 : list Z) :
  l1 = skipn j1 l -> l2 = skipn j2 l1 -> l2 = skipn (j2 + j1) l.
Proof. intros -> ->. apply skipn_skipn. Qed.

Lemma unary_loop_any (md : build) (stop : Z) (fuel : nat) :
  forall acc st, wf st ->
  wf (snd (unary_loop md stop fuel acc st)) /\
  exists j, stream (snd (unary_loop md stop fuel acc st)) = skipn j (stream st).
Proof.
  induction fuel as [|fuel IH]; intros acc st Hwf.
  - split; [exact Hwf | exists 0%nat; reflexivity].
  - cbn [unary_loop]. unfold bind.
    destruct (read_any 1 st Hwf) as [Hw1 [j1 Hs1]].
    destruct (read 1 st) as [r st1]; cbn [snd] in Hw1, Hs1.
    destruct r as [b | e |]; cbn [snd]; [|suffix_done|suffix_done].
    destruct (negb (b =? stop)); [|unfold ret; cbn [snd]; suffix_done].
    unfold lift. destruct (add_u32 md acc 1) as [a|]; [|cbn [snd]; suffix_done].
    destruct (IH a st1 Hw1) as [Hw2 [j2 Hs2]].
    split; [exact Hw2|]. exists (j2 + j1)%nat. eapply suffix_trans; eauto.
Qed.

Lemma read_bytes_loop_any (buf : list Byte.byte) :
  forall st, wf st ->
  wf (snd (fst (read_bytes_loop buf st))) /\
  exists j, stream (snd (fst (read_bytes_loop buf st))) = skipn j (stream st).
Proof.
  induction buf as [|b rest IH]; intros st Hwf.
  - split; [exact Hwf | exists 0%nat; reflexivity].
  - cbn [read_bytes_loop].
    destruct (read_any 8 st Hwf) as [Hw1 [j1 Hs1]].
    destruct (read 8 st) as [r st1]; cbn [snd] in Hw1, Hs1.
    destruct r as [v | e |]; cbn [fst snd]; [|eauto|suffix_done].
    destruct (IH st1 Hw1) as [Hw2 [j2 Hs2]].
    destruct (read_bytes_loop rest st1) as [[r st2] d]; cbn [fst snd] in *.
    split; [exact Hw2|]. exists (j2 + j1)%nat. eapply suffix_trans; eauto.
Qed.

Lemma read_bytes_any (buf : list Byte.byte) (st : reader) :
  wf st ->
  wf (snd (fst (read_bytes buf st))) /\
  exists j, stream (snd (fst (read_bytes buf st))) = skipn j (stream st).
Proof.
  intros Hwf. unfold read_bytes.
  destruct (byte_aligned st) eqn:Ha; [|apply read_bytes_loop_any; exact Hwf].
  destruct st as [src sbuf]; unfold byte_aligned in Ha; cbn [buffer] in Ha.
  destruct sbuf; [|discriminate].
  unfold read_exact; cbn [source buffer].
  destruct (Nat.leb (length buf) (length src)); cbn [fst snd].
  - split; [split; cbn; [constructor | lia]|].
    exists (8 * length buf)%nat. unfold stream; cbn [buffer source app].
    apply flat_map_skipn.
  - split; [split; cbn; [constructor | lia]|].
    exists (length (stream (mkReader src []))). symmetry. apply skipn_all.
Qed.

Lemma run_op_any (md : build) (o : read_op) (st st' : reader) :
  run_op md o st = Some st' -> wf st ->
  wf st' /\ exists j, stream st' = skipn j (stream st).
Proof.
  intros Hrun Hwf.
  assert (Hok : forall A (r : res A * reader),
             wf (snd r) /\ (exists j, stream (snd r) = skipn j (stream st)) ->
             match r with (ROk _, s) => Some s | _ => None end = Some st' ->
             wf st' /\ exists j, stream st' = skipn j (stream st)).
  { intros A [[a | e |] s] H Heq; try discriminate. injection Heq as <-. exact H. }
  destruct o as [b | b | b | buf | |]; cbn [run_op] in Hrun.
  - exact (Hok _ _ (read_any b st Hwf) Hrun).
  - refine (Hok _ _ _ Hrun). rewrite read_signed_state. apply read_any, Hwf.
  - refine (Hok _ _ _ Hrun). rewrite skip_state. apply read_any, Hwf.
  - destruct (read_bytes_any buf st Hwf) as [Hw Hs].
    destruct (read_bytes buf st) as [[[a | e |] s] d]; try discriminate.
    injection Hrun as <-. split; assumption.
  - exact (Hok _ (read_unary0 md st) (unary_loop_any md 0 _ 0 st Hwf) Hrun).
  - exact (Hok _ (read_unary1 md st) (unary_loop_any md 1 _ 0 st Hwf) Hrun).
Qed.

Lemma run_ops_any (md : build) (os : list read_op) :
  forall st st', run_ops md os st = Some st' -> wf st ->
  wf st' /\ exists j, stream st' = skipn j (stream st).
Proof.
  induction os as [|o os IH]; intros st st' Hrun Hwf; cbn [run_ops] in Hrun.
  - injection Hrun as <-. split; [exact Hwf | exists 0%nat; reflexivity].
  - destruct (run_op md o st) as [st1|] eqn:H1; [|discriminate].
    destruct (run_op_any md o st st1 H1 Hwf) as [Hw1 [j1 Hs1]].
    destruct (IH st1 st' Hrun Hw1) as [Hw2 [j2 Hs2]].
    split; [exact Hw2|]. exists (j2 + j1)%nat. eapply suffix_trans; eauto.
Qed.

(** C7: [byte_aligned] holds right after construction and after
    [byte_align], whatever the buffer held; after a sequence of
    successful reads from a fresh reader, the reader has consumed a
    prefix of the stream, and it is byte-aligned exactly when the length
    of that prefix is a multiple of 8. *)
Theorem byte_aligned_position (src : list Byte.byte) :
  byte_aligned (new src) = true /\
  (forall st, byte_aligned (byte_align st) = true) /\
  (forall md os st', run_ops md os (new src) = Some st' ->
     exists consumed, stream (new src) = consumed ++ stream st' /\
       (byte_aligned st' = true <-> Nat.modulo (length consumed) 8 = 0%nat)).
Proof.
  split; [reflexivity | split; [reflexivity|]].
  intros md os st' Hrun.
  destruct (run_ops_any md os _ _ Hrun (wf_new src)) as [[_ Hl] [j Hs]].
  exists (firstn j (stream (new src))).
  split; [rewrite Hs; symmetry; apply firstn_skipn|].
  assert (Hlen : (length (firstn j (stream (new src))) + stream_len st' =
                  8 * length src)%nat).
  { rewrite <- stream_length, Hs, <- length_app, firstn_skipn, stream_length.
    unfold stream_len; cbn [new buffer source length]. lia. }
  unfold stream_len in Hlen. unfold byte_aligned.
  rewrite Nat.eqb_eq.
  remember (length (firstn j (stream (new src)))) as c.
  remember (length (buffer st')) as nb.
  split; intros H.
  - subst nb. rewrite H in Hlen.
    replace c with (8 * (length src - length (source st')))%nat by lia.
    rewrite Nat.mul_comm. apply Nat.Div0.mod_mul.
  - pose proof (Nat.div_mod_eq c 8) as Hd. rewrite H in Hd. lia.
Qed.

(** C8: the buffer invariant ([wf]: fewer than 8 entries, each a bit)
    holds for a fresh reader and is kept by every public operation,
    whether it succeeds or fails.  A refill happens only on an empty
    buffer: with a non-empty buffer [next_bit] pops its front and leaves
    the source alone; on an empty buffer [refill] either takes one byte
    and pushes its 8 bits from bit 7 down to bit 0, or fails and changes
    nothing. *)
Theorem buffer_invariant (md : build) :
  (forall src, wf (new src)) /\
  (forall st bits buf, wf st ->
     wf (snd (read bits st)) /\ wf (snd (read_signed md bits st)) /\
     wf (snd (skip bits st)) /\ wf (snd (fst (read_bytes buf st))) /\
     wf (snd (read_unary0 md st)) /\ wf (snd (read_unary1 md st)) /\
     wf (byte_align st)) /\
  (forall src x r,
     next_bit (mkReader src (x :: r)) = (ROk x, mkReader src r)) /\
  (forall b s, refill (mkReader (b :: s) []) = (ROk tt, mkReader s (byte_bits b))) /\
  refill (mkReader [] []) = (RErr UnexpectedEof, mkReader [] []).
Proof.
  split; [exact wf_new|]. split; [|split; [|split]].
  - intros st bits buf Hwf.
    rewrite read_signed_state, skip_state.
    destruct (read_any bits st Hwf) as [Hr _].
    refine (conj Hr (conj Hr (conj Hr (conj (proj1 (read_bytes_any buf st Hwf))
              (conj (proj1 (unary_loop_any md 0 _ 0 st Hwf))
              (conj (proj1 (unary_loop_any md 1 _ 0 st Hwf)) _)))))).
    split; cbn; [constructor | lia].
  - intros src x r. apply next_bit_pop. reflexivity.
  - intros b s. unfold byte_bits; cbn [map].
    rewrite <- !shiftr_land_1 by lia. reflexivity.
  - reflexivity.
Qed.

(** C9 (as stated, refuted): [read_signed 0] returns a value when
    overflow checks are off: [bits - 1] wraps to [u32::MAX], the shift
    amount is masked to 31, and [0 & (1 << 31)] is 0. *)
Lemma read_signed_zero_release :
  read_signed Release 0 (new [Byte.xff]) = (ROk 0, new [Byte.xff]) /\
  (forall st, read_signed Release 0 st = (ROk 0, st)).
Proof. split; [reflexivity | intros st; reflexivity]. Qed.

(** C9 (amended): [read 0] returns [Ok(0)] without touching the source
    or the buffer.  [read_signed 0] panics on every input when overflow
    checks are on ([bits - 1] underflows), and returns [Ok(0)] on every
    input, leaving the reader unchanged, when they are off. *)
Theorem read_zero_width :
  (forall st, read 0 st = (ROk 0, st)) /\
  (forall st, read_signed Debug 0 st = (RPanic, st)) /\
  (forall st, read_signed Release 0 st = (ROk 0, st)).
Proof. repeat split; intros st; reflexivity. Qed.

Lemma read_value (bits : nat) (st : reader) :
  wf st -> (bits <= 32)%nat -> (bits <= length (stream st))%nat ->
  exists st', read_loop bits 0 st = (ROk (msb_value (firstn bits (stream st))), st') /\
              stream st' = skipn bits (stream st) /\ wf st'.
Proof.
  intros Hwf Hb Hn.
  destruct (read_loop_ok bits 0 st Hwf Hn) as (st' & Hr & Hs & Hw).
  exists st'. split; [|auto]. rewrite Hr. do 2 f_equal.
  unfold msb_value. apply (fold_shift_in _ _ 0).
  - apply forall_firstn, stream_bits, Hwf.
  - cbn; lia.
  - rewrite length_firstn; lia.
Qed.

Lemma read_bytes_loop_partial (j : nat) :
  forall buf st, wf st -> (j < length buf)%nat ->
  (8 * j <= length (stream st) < 8 * S j)%nat ->
  read_bytes_loop buf st =
  (RErr UnexpectedEof, mkReader [] [], chunk_bytes j (stream st) ++ skipn j buf).
Proof.
  induction j as [|j IH]; intros buf st Hwf Hj Hn;
    (destruct buf as [|b rest]; [cbn in Hj; lia|]); cbn [read_bytes_loop].
  - unfold read. rewrite read_loop_err by (cbn; lia). reflexivity.
  - destruct (read_value 8 st Hwf ltac:(lia) ltac:(lia)) as (st1 & Hr & Hs & Hw).
    unfold read. change (Z.to_nat 8) with 8%nat. rewrite Hr.
    rewrite (IH rest st1 Hw) by (cbn [length] in Hj; rewrite ?Hs, ?length_skipn; lia).
    rewrite Hs. reflexivity.
Qed.

(** C10: on a reader that is not byte-aligned, if the [k]-th [read(8)]
    of [read_bytes] fails (the stream holds at least [8 (k - 1)] but
    fewer than [8 k] bits), the call returns the I/O error after storing
    the first [k - 1] decoded bytes; the remaining destination bytes keep
    their values. *)
Theorem read_bytes_partial_fill (buf : list Byte.byte) (st : reader) (k : nat) :
  wf st -> byte_aligned st = false -> (1 <= k <= length buf)%nat ->
  (8 * (k - 1) <= length (stream st) < 8 * k)%nat ->
  read_bytes buf st =
  (RErr UnexpectedEof, mkReader [] [],
   chunk_bytes (k - 1) (stream st) ++ skipn (k - 1) buf).
Proof.
  intros Hwf Ha Hk Hn. unfold read_bytes. rewrite Ha.
  apply read_bytes_loop_partial; [exact Hwf | lia | lia].
Qed.

Lemma read_bytes_partial_fill_witness :
  read_bytes [Byte.x00; Byte.x00; Byte.x00] (snd (read 4 (new [Byte.xab; Byte.xcd]))) =
  (RErr UnexpectedEof, mkReader [] [], [Byte.xbc; Byte.x00; Byte.x00]).
Proof.
  rewrite (read_bytes_partial_fill [Byte.x00; Byte.x00; Byte.x00]
             (snd (read 4 (new [Byte.xab; Byte.xcd]))) 2).
  - reflexivity.
  - exact (proj1 (read_any 4 _ (wf_new _))).
  - reflexivity.
  - cbn; lia.
  - vm_compute; lia.
Defined.

(** * Further properties of the reader *)

(** ** The value [read] builds *)

Lemma msb_fold_shift (l : list Z) (acc : Z) :
  fold_left (fun a x => 2 * a + x) l acc =
  acc * 2 ^ Z.of_nat (length l) + fold_left (fun a x => 2 * a + x) l 0.
Proof.
  revert acc; induction l as [|x l IH]; intros acc; cbn [fold_left length].
  - cbn; lia.
  - rewrite IH, (IH (2 * 0 + x)). rewrite Nat2Z.inj_succ, Z.pow_succ_r by lia. lia.
Qed.

Lemma msb_value_app (l1 l2 : list Z) :
  msb_value (l1 ++ l2) = msb_value l1 * 2 ^ Z.of_nat (length l2) + msb_value l2.
Proof. unfold msb_value. rewrite fold_left_app. apply msb_fold_shift. Qed.

Lemma msb_value_bound (l : list Z) :
  Forall is_bit l -> 0 <= msb_value l < 2 ^ Z.of_nat (length l).
Proof.
  induction l as [|x l IH] using rev_ind; intros Hl.
  - unfold msb_value; cbn [fold_left length Z.of_nat]. rewrite Z.pow_0_r. lia.
  - apply Forall_app in Hl as [Hl Hx]. inversion Hx as [|? ? Hb]; subst.
    specialize (IH Hl). rewrite msb_value_app, length_app.
    cbn [length]. rewrite Nat2Z.inj_add. cbn [Z.of_nat Pos.of_succ_nat].
    rewrite Z.pow_add_r, Z.pow_1_r by lia.
    assert (Hs : msb_value [x] = x) by (unfold msb_value; cbn; lia).
    rewrite Hs. destruct Hb as [-> | ->]; lia.
Qed.

(** [(acc << 1) | bit] on a [u32] is [(2 * acc + bit) mod 2^32]. *)
Lemma shift_in_mod (acc x : Z) :
  0 <= acc -> is_bit x -> shift_in acc x = (2 * acc + x) mod 2 ^ 32.
Proof.
  intros Ha Hx. unfold shift_in, wrap_u32.
  rewrite Z.shiftl_mul_pow2, Z.pow_1_r by lia.
  assert (Heven : (acc * 2) mod 2 ^ 32 = 2 * ((acc mod 2 ^ 31))).
  { change (2 ^ 32) with (2 * 2 ^ 31). rewrite Z.mul_comm.
    rewrite Z.mul_mod_distr_l by lia. reflexivity. }
  rewrite Heven, lor_double_bit by exact Hx.
  rewrite <- Z.add_mod_idemp_l by lia. rewrite (Z.mul_comm 2 acc), Heven.
  pose proof (Z.mod_pos_bound acc (2 ^ 31) ltac:(lia)).
  symmetry; apply Z.mod_small. destruct Hx as [-> | ->]; lia.
Qed.

Lemma fold_shift_in_mod (l : list Z) (acc : Z) :
  Forall is_bit l -> 0 <= acc < 2 ^ 32 ->
  fold_left shift_in l acc = fold_left (fun a x => 2 * a + x) l acc mod 2 ^ 32.
Proof.
  revert acc; induction l as [|x l IH]; intros acc Hl Ha; cbn [fold_left].
  - symmetry. apply Z.mod_small. exact Ha.
  - inversion Hl as [|? ? Hx Hl']; subst.
    rewrite shift_in_mod by (lia || exact Hx).
    rewrite IH by (exact Hl' || apply Z.mod_pos_bound; lia).
    rewrite (msb_fold_shift l ((2 * acc + x) mod 2 ^ 32)), (msb_fold_shift l (2 * acc + x)).
    rewrite <- Z.add_mod_idemp_l, Z.mul_mod_idemp_l, Z.add_mod_idemp_l by lia.
    reflexivity.
Qed.

(** ** Composition of the reading loop *)

Lemma bind_assoc {A B C} (m : M A) (f : A -> M B) (g : B -> M C) (st : reader) :
  bind (bind m f) g st = bind m (fun a => bind (f a) g) st.
Proof. unfold bind. destruct (m st) as [[a | e |] st']; reflexivity. Qed.

Lemma bind_ext {A B} (m : M A) (f g : A -> M B) (st : reader) :
  (forall a s, f a s = g a s) -> bind m f st = bind m g st.
Proof. intros H. unfold bind. destruct (m st) as [[a | e |] st']; auto. Qed.

(** [bits] iterations split into [n] iterations followed by [m]. *)
Lemma read_loop_app (n m : nat) :
  forall acc st, read_loop (n + m) acc st = bind (read_loop n acc) (read_loop m) st.
Proof.
  induction n as [|n IH]; intros acc st.
  - reflexivity.
  - cbn [read_loop Nat.add]. rewrite bind_assoc. apply bind_ext. intros a s. apply IH.
Qed.

(** The accumulator's start value changes the value only: the bits read
    and the reader afterwards are those of a read from [0]. *)
Lemma read_loop_acc (m : nat) :
  forall acc st, (m <= length (stream st))%nat ->
  read_loop m acc st =
  (ROk (fold_left shift_in (firstn m (stream st)) acc), snd (read_loop m 0 st)).
Proof.
  induction m as [|m IH]; intros acc st Hm; [reflexivity|].
  destruct (stream st) as [|x l] eqn:Hs; cbn [length] in Hm; [lia|].
  destruct (next_bit_stream st x l Hs) as (st1 & Hnb & Hs1 & _).
  cbn [read_loop firstn fold_left]. unfold bind. rewrite Hnb.
  fold (shift_in acc x) (shift_in 0 x).
  rewrite (IH (shift_in acc x) st1), (IH (shift_in 0 x) st1) by (rewrite Hs1; lia).
  rewrite Hs1. reflexivity.
Qed.

Lemma read_loop_discard (m : nat) :
  forall acc acc' st,
  bind (read_loop m acc) (fun _ => ret tt) st = bind (read_loop m acc') (fun _ => ret tt) st.
Proof.
  induction m as [|m IH]; intros acc acc' st; [reflexivity|].
  cbn [read_loop]. rewrite !bind_assoc.
  unfold bind at 1 3. destruct (next_bit st) as [[x | e |] s]; [|reflexivity..].
  apply IH.
Qed.

(** ** Panics *)

Lemma next_bit_no_panic (st : reader) : fst (next_bit st) <> RPanic.
Proof.
  destruct st as [[|b src] [|x buf]].
  - rewrite next_bit_eof. discriminate.
  - rewrite (next_bit_pop _ x buf) by reflexivity. discriminate.
  - rewrite next_bit_refill. discriminate.
  - rewrite (next_bit_pop _ x buf) by reflexivity. discriminate.
Qed.

Lemma read_loop_no_panic (n : nat) :
  forall acc st, fst (read_loop n acc st) <> RPanic.
Proof.
  induction n as [|n IH]; intros acc st; [discriminate|].
  cbn [read_loop]. unfold bind at 1.
  pose proof (next_bit_no_panic st) as Hnp.
  destruct (next_bit st) as [[x | e |] s]; [apply IH | discriminate | contradiction].
Qed.

Lemma read_bytes_loop_no_panic (buf : list Byte.byte) :
  forall st, fst (fst (read_bytes_loop buf st)) <> RPanic.
Proof.
  induction buf as [|b buf IH]; intros st; cbn [read_bytes_loop]; [discriminate|].
  pose proof (read_loop_no_panic (Z.to_nat 8) 0 st) as Hnp. unfold read.
  destruct (read_loop (Z.to_nat 8) 0 st) as [[v | e |] st1]; [| discriminate | contradiction].
  specialize (IH st1).
  destruct (read_bytes_loop buf st1) as [[r st2] rest']. exact IH.
Qed.

Lemma signed_of_release (bits u : Z) : signed_of Release bits u <> None.
Proof.
  unfold signed_of, sub_u32, shl_u32, shl_i32, sub_i32, neg_i32, checked.
  repeat match goal with |- context [if ?c then _ else _] => destruct c end;
    discriminate.
Qed.

Lemma unary_loop_release_no_panic (stop : Z) (fuel : nat) :
  forall acc st, (length (stream st) < fuel)%nat ->
  fst (unary_loop Release stop fuel acc st) <> RPanic.
Proof.
  induction fuel as [|fuel IH]; intros acc st Hf; [lia|].
  cbn [unary_loop]. unfold bind at 1.
  destruct (stream st) as [|x l] eqn:Hs.
  - apply stream_nil in Hs. subst st. rewrite read1_eof. discriminate.
  - destruct (read1_stream st x l Hs) as (st1 & Hr & Hs1 & _). rewrite Hr.
    destruct (negb (x =? stop)); [|discriminate].
    unfold bind, lift, add_u32, checked.
    destruct (in_u32 (acc + 1)); apply IH; rewrite Hs1; cbn [length] in Hf; lia.
Qed.

Lemma bind_eq_l {A B} (m m' : M A) (f : A -> M B) (st : reader) :
  m st = m' st -> bind m f st = bind m' f st.
Proof. intros H. unfold bind. rewrite H. reflexivity. Qed.

Lemma read_exact_no_panic (n : nat) (st : reader) : fst (read_exact n st) <> RPanic.
Proof. unfold read_exact. destruct (Nat.leb n (length (source st))); discriminate. Qed.

(** X1: No reading operation panics in a release build, and [read], [skip]
    and [read_bytes] do not panic in any build: each either succeeds or
    returns an [io::Error]. *)
Theorem reads_never_panic (bits : Z) (buf : list Byte.byte) (st : reader) :
  fst (read bits st) <> RPanic /\ fst (skip bits st) <> RPanic /\
  fst (fst (read_bytes buf st)) <> RPanic /\
  fst (read_signed Release bits st) <> RPanic /\
  fst (read_unary0 Release st) <> RPanic /\ fst (read_unary1 Release st) <> RPanic.
Proof.
  pose proof (read_loop_no_panic (Z.to_nat bits) 0 st) as Hr. fold (read bits) in Hr.
  split; [exact Hr|]. split.
  { unfold skip, bind. destruct (read bits st) as [[v | e |] s];
      [discriminate | discriminate | contradiction]. }
  split.
  { unfold read_bytes. destruct (byte_aligned st).
    - pose proof (read_exact_no_panic (length buf) st) as He.
      destruct (read_exact (length buf) st) as [[bs | e |] s];
        [discriminate | discriminate | contradiction].
    - apply read_bytes_loop_no_panic. }
  split.
  { unfold read_signed, bind, lift.
    pose proof (signed_of_release bits) as Hs.
    destruct (read bits st) as [[v | e |] s]; [| discriminate | contradiction].
    specialize (Hs v). destruct (signed_of Release bits v); [discriminate | contradiction]. }
  split; apply unary_loop_release_no_panic; rewrite stream_length; lia.
Qed.

(** X2: A read of [a] bits followed by a read of [b] bits, [a + b <= 32],
    reads what a single read of [a + b] bits reads: the concatenation
    of the two values, leaving the reader in the same state. *)
Theorem read_concat (a b x y : Z) (st st1 st2 : reader) :
  0 <= a -> 0 <= b -> a + b <= 32 -> wf st ->
  read a st = (ROk x, st1) -> read b st1 = (ROk y, st2) ->
  read (a + b) st = (ROk (x * 2 ^ b + y), st2).
Proof.
  intros Ha Hb Hab Hwf Hx Hy. unfold read in *.
  rewrite Z2Nat.inj_add by lia.
  set (na := Z.to_nat a) in *. set (nb := Z.to_nat b) in *.
  assert (Hna : (na <= length (stream st))%nat).
  { destruct (Nat.le_gt_cases na (length (stream st))) as [H | H]; [exact H|].
    rewrite read_loop_err in Hx by exact H. discriminate. }
  assert (Hnb : (nb <= length (stream st1))%nat).
  { destruct (Nat.le_gt_cases nb (length (stream st1))) as [H | H]; [exact H|].
    rewrite read_loop_err in Hy by exact H. discriminate. }
  destruct (read_stream na 0 st Hwf) as [_ Hwf1]. rewrite Hx in Hwf1. cbn [snd] in Hwf1.
  rewrite read_loop_app. unfold bind. rewrite Hx.
  rewrite read_loop_acc by exact Hnb. rewrite Hy. cbn [snd].
  rewrite read_loop_acc in Hx by exact Hna. rewrite read_loop_acc in Hy by exact Hnb.
  injection Hx as Hx _. injection Hy as Hy _.
  pose proof (forall_firstn _ na _ (stream_bits st Hwf)) as Hba.
  pose proof (forall_firstn _ nb _ (stream_bits st1 Hwf1)) as Hbb.
  assert (Hla : length (firstn na (stream st)) = na) by (rewrite length_firstn; lia).
  assert (Hlb : length (firstn nb (stream st1)) = nb) by (rewrite length_firstn; lia).
  rewrite (fold_shift_in _ 0 0) in Hx by (exact Hba || cbn; lia || rewrite Hla; lia).
  rewrite (fold_shift_in _ 0 0) in Hy by (exact Hbb || cbn; lia || rewrite Hlb; lia).
  pose proof (msb_value_bound _ Hba) as Hxb. unfold msb_value in Hxb.
  rewrite Hx, Hla in Hxb. unfold na in Hxb. rewrite Z2Nat.id in Hxb by lia.
  rewrite (fold_shift_in _ x na); [| exact Hbb | unfold na; rewrite Z2Nat.id; lia
                                   | rewrite Hlb; unfold na, nb; lia].
  rewrite msb_fold_shift, Hy, Hlb. unfold nb. rewrite Z2Nat.id by lia. reflexivity.
Qed.

Lemma read_concat_witness :
  read (3 + 5) (new [Byte.xa5]) = (ROk (5 * 2 ^ 5 + 5), mkReader [] []).
Proof.
  apply (read_concat 3 5 5 5 (new [Byte.xa5]) (mkReader [] [0; 0; 1; 0; 1]) (mkReader [] []));
    [lia | lia | lia | apply wf_new | vm_compute; reflexivity | vm_compute; reflexivity].
Defined.

(** X3: Skipping [a] bits and then [b] bits is skipping [a + b] bits: the
    same outcome and the same reader, whether it succeeds or fails. *)
Theorem skip_concat (a b : Z) (st : reader) :
  0 <= a -> 0 <= b -> bind (skip a) (fun _ => skip b) st = skip (a + b) st.
Proof.
  intros Ha Hb. unfold skip, read. rewrite Z2Nat.inj_add by lia.
  rewrite (bind_eq_l _ _ _ _ (read_loop_app (Z.to_nat a) (Z.to_nat b) 0 st)).
  rewrite !bind_assoc. apply bind_ext. intros x s.
  rewrite (read_loop_discard (Z.to_nat b) x 0 s). reflexivity.
Qed.

Lemma skip_concat_witness :
  bind (skip 3) (fun _ => skip 7) (new [Byte.xab; Byte.xcd]) =
  skip (3 + 7) (new [Byte.xab; Byte.xcd]).
Proof. apply skip_concat; lia. Defined.

(** ** Values and failures of [read] *)

(** X4: A read of any width with enough bits available succeeds; its value
    is the number the bits read spell, most significant first, reduced
    modulo [2^32]: a read wider than 32 bits keeps its last 32 bits. *)
Theorem read_value_mod (bits : Z) (st : reader) :
  wf st -> (Z.to_nat bits <= length (stream st))%nat ->
  fst (read bits st) = ROk (msb_value (firstn (Z.to_nat bits) (stream st)) mod 2 ^ 32) /\
  stream (snd (read bits st)) = skipn (Z.to_nat bits) (stream st) /\
  wf (snd (read bits st)).
Proof.
  intros Hwf Hn. unfold read.
  destruct (read_loop_ok (Z.to_nat bits) 0 st Hwf Hn) as (st' & -> & Hs & Hw).
  cbn [fst snd]. split; [|split; assumption].
  rewrite fold_shift_in_mod; [reflexivity | | lia].
  apply forall_firstn, stream_bits, Hwf.
Qed.

Lemma read_value_mod_witness :
  fst (read 40 (new [Byte.x01; Byte.x02; Byte.x03; Byte.x04; Byte.x05])) =
    ROk (msb_value (firstn (Z.to_nat 40)
           (stream (new [Byte.x01; Byte.x02; Byte.x03; Byte.x04; Byte.x05]))) mod 2 ^ 32) /\
  stream (snd (read 40 (new [Byte.x01; Byte.x02; Byte.x03; Byte.x04; Byte.x05]))) =
    skipn (Z.to_nat 40) (stream (new [Byte.x01; Byte.x02; Byte.x03; Byte.x04; Byte.x05])) /\
  wf (snd (read 40 (new [Byte.x01; Byte.x02; Byte.x03; Byte.x04; Byte.x05]))).
Proof.
  apply read_value_mod; [apply wf_new | apply Nat.leb_le; vm_compute; reflexivity].
Defined.

(** X5: A read either succeeds, when at least [bits] bits are left, or
    fails with [UnexpectedEof], when fewer are left; a failed read has
    drained the reader: no byte left in the source, an empty buffer. *)
Theorem read_fails_iff_short (bits : Z) (st : reader) :
  wf st ->
  ((exists v, fst (read bits st) = ROk v) <-> (Z.to_nat bits <= length (stream st))%nat) /\
  ((length (stream st) < Z.to_nat bits)%nat <->
   read bits st = (RErr UnexpectedEof, mkReader [] [])).
Proof.
  intros Hwf. unfold read.
  destruct (Nat.le_gt_cases (Z.to_nat bits) (length (stream st))) as [Hn | Hn].
  - destruct (read_loop_ok (Z.to_nat bits) 0 st Hwf Hn) as (st' & -> & _ & _).
    split; split; intros H.
    + exact Hn.
    + eexists; reflexivity.
    + lia.
    + discriminate.
  - rewrite read_loop_err by exact Hn.
    split; split; intros H.
    + destruct H; discriminate.
    + lia.
    + reflexivity.
    + exact Hn.
Qed.

Lemma read_fails_iff_short_witness :
  ((exists v, fst (read 9 (new [Byte.xff])) = ROk v) <->
   (Z.to_nat 9 <= length (stream (new [Byte.xff])))%nat) /\
  ((length (stream (new [Byte.xff])) < Z.to_nat 9)%nat <->
   read 9 (new [Byte.xff]) = (RErr UnexpectedEof, mkReader [] [])).
Proof. apply read_fails_iff_short. apply wf_new. Defined.

(** X6: A successful read of [bits <= 32] bits returns a value below
    [2^bits]. *)
Theorem read_bound (bits v : Z) (st st' : reader) :
  0 <= bits <= 32 -> wf st -> read bits st = (ROk v, st') -> 0 <= v < 2 ^ bits.
Proof.
  intros Hb Hwf Hr. unfold read in Hr.
  destruct (Nat.le_gt_cases (Z.to_nat bits) (length (stream st))) as [Hn | Hn].
  - destruct (read_value (Z.to_nat bits) st Hwf ltac:(lia) Hn) as (st1 & Hr1 & _ & _).
    rewrite Hr1 in Hr. injection Hr as <- _.
    pose proof (msb_value_bound _ (forall_firstn _ (Z.to_nat bits) _ (stream_bits st Hwf)))
      as Hv.
    rewrite length_firstn, Nat.min_l, Z2Nat.id in Hv by lia. exact Hv.
  - rewrite read_loop_err in Hr by exact Hn. discriminate.
Qed.

Lemma read_bound_witness : 0 <= 3 < 2 ^ 4.
Proof.
  apply (read_bound 4 3 (new [Byte.x3c]) (mkReader [] [1; 1; 0; 0]));
    [lia | apply wf_new | vm_compute; reflexivity].
Defined.

(** ** [read_signed] *)

Lemma in_u32_true (z : Z) : 0 <= z < 2 ^ 32 -> in_u32 z = true.
Proof. intros H. unfold in_u32. apply andb_true_intro; split; [apply Z.leb_le | apply Z.ltb_lt]; lia. Qed.

Lemma in_i32_true (z : Z) : - 2 ^ 31 <= z < 2 ^ 31 -> in_i32 z = true.
Proof. intros H. unfold in_i32. apply andb_true_intro; split; [apply Z.leb_le | apply Z.ltb_lt]; lia. Qed.

Lemma land_pow2_zero (u n : Z) :
  0 <= n -> (Z.land u (2 ^ n) =? 0) = negb (Z.testbit u n).
Proof.
  intros Hn. destruct (Z.testbit u n) eqn:Ht; cbn [negb].
  - apply Z.eqb_neq. intros H0.
    assert (H1 : Z.testbit (Z.land u (2 ^ n)) n = true)
      by (rewrite Z.land_spec, Ht, Z.pow2_bits_true by exact Hn; reflexivity).
    rewrite H0, Z.bits_0 in H1. discriminate.
  - apply Z.eqb_eq. apply Z.bits_inj'. intros m Hm.
    rewrite Z.land_spec, Z.bits_0, Z.pow2_bits_eqb by exact Hn.
    destruct (Z.eqb_spec n m) as [<- | _]; [rewrite Ht; reflexivity | apply andb_false_r].
Qed.

Lemma testbit_top (x r n : Z) :
  0 <= n -> is_bit x -> 0 <= r < 2 ^ n -> Z.testbit (x * 2 ^ n + r) n = (x =? 1).
Proof.
  intros Hn Hx Hr. pose proof (Z.testbit_spec' (x * 2 ^ n + r) n Hn) as H.
  rewrite Z.div_add_l, Z.div_small, Z.add_0_r in H by lia.
  destruct Hx as [-> | ->]; destruct (Z.testbit _ n); cbn in H |- *;
    congruence.
Qed.

Lemma msb_value_cons (x : Z) (l : list Z) :
  msb_value (x :: l) = x * 2 ^ Z.of_nat (length l) + msb_value l.
Proof.
  change (x :: l) with ([x] ++ l). rewrite msb_value_app. reflexivity.
Qed.

(** The closure of [read_signed] on a value whose top bit (of [bits])
    is [x]. *)
Lemma signed_of_bits (md : build) (bits x r : Z) :
  1 <= bits <= 30 -> is_bit x -> 0 <= r < 2 ^ (bits - 1) ->
  signed_of md bits (x * 2 ^ (bits - 1) + r) = Some (x * 2 ^ (bits - 1) + r - x * 2 ^ bits).
Proof.
  intros Hb Hx Hr.
  assert (Hp : 2 ^ bits = 2 * 2 ^ (bits - 1))
    by (rewrite <- Z.pow_succ_r by lia; f_equal; lia).
  assert (Hp29 : 2 ^ (bits - 1) <= 2 ^ 29) by (apply Z.pow_le_mono_r; lia).
  assert (Hi : forall u, 0 <= u < 2 ^ 30 -> as_i32 u = u).
  { intros u Hu. unfold as_i32, wrap_i32. rewrite Z.mod_small by lia. lia. }
  unfold signed_of, sub_u32, shl_u32, shl_i32, sub_i32, neg_i32.
  rewrite in_u32_true by lia. unfold checked.
  rewrite (proj2 (Z.ltb_lt (bits - 1) 32)) by lia.
  rewrite Z.shiftl_1_l. unfold wrap_u32. rewrite (Z.mod_small (2 ^ (bits - 1))) by lia.
  rewrite land_pow2_zero, testbit_top by (assumption || lia).
  destruct Hx as [-> | ->]; cbn [Z.eqb negb Pos.eqb].
  - rewrite Hi by lia. f_equal; lia.
  - rewrite (proj2 (Z.ltb_lt bits 32)) by lia. rewrite Z.shiftl_1_l.
    assert (Hw : wrap_i32 (2 ^ bits) = 2 ^ bits)
      by (unfold wrap_i32; rewrite Z.mod_small by lia; lia).
    rewrite Hw, Hi by lia. rewrite in_i32_true by lia. rewrite in_i32_true by lia.
    f_equal; lia.
Qed.

(** X7: For widths 1 to 30, in every build, [read_signed] decodes the bits
    read as a two's-complement number: the first bit read weighs
    [-2^(bits-1)]; the result lies in [[-2^(bits-1), 2^(bits-1))] and
    the reader advances by [bits] bits. *)
Theorem read_signed_twos_complement (md : build) (bits : Z) (st : reader) :
  1 <= bits <= 30 -> wf st -> (Z.to_nat bits <= length (stream st))%nat ->
  fst (read_signed md bits st) =
    ROk (msb_value (firstn (Z.to_nat bits) (stream st)) - hd 0 (stream st) * 2 ^ bits) /\
  stream (snd (read_signed md bits st)) = skipn (Z.to_nat bits) (stream st) /\
  - 2 ^ (bits - 1) <= msb_value (firstn (Z.to_nat bits) (stream st)) - hd 0 (stream st) * 2 ^ bits
    < 2 ^ (bits - 1).
Proof.
  intros Hb Hwf Hn.
  destruct (read_value (Z.to_nat bits) st Hwf ltac:(lia) Hn) as (st' & Hr & Hs & _).
  unfold read_signed, bind, read. rewrite Hr. unfold lift.
  pose proof (stream_bits st Hwf) as Hbits.
  destruct (stream st) as [|x l] eqn:Hst; [cbn in Hn; lia|].
  inversion Hbits as [|? ? Hx Hl]; subst.
  replace (Z.to_nat bits) with (S (Z.to_nat (bits - 1))) in * by lia.
  cbn [firstn skipn hd] in *. rewrite msb_value_cons.
  assert (Hlen : length (firstn (Z.to_nat (bits - 1)) l) = Z.to_nat (bits - 1))
    by (rewrite length_firstn; cbn [length] in Hn; lia).
  pose proof (msb_value_bound _ (forall_firstn _ (Z.to_nat (bits - 1)) _ Hl)) as Hrb.
  rewrite Hlen, Z2Nat.id in Hrb |- * by lia.
  rewrite signed_of_bits by assumption. cbn [fst snd].
  split; [reflexivity|]. split; [exact Hs|].
  assert (Hp : 2 ^ bits = 2 * 2 ^ (bits - 1))
    by (rewrite <- Z.pow_succ_r by lia; f_equal; lia).
  destruct Hx as [-> | ->]; lia.
Qed.

Lemma read_signed_twos_complement_witness :
  fst (read_signed Debug 4 (new [Byte.xa5])) =
    ROk (msb_value (firstn (Z.to_nat 4) (stream (new [Byte.xa5]))) -
         hd 0 (stream (new [Byte.xa5])) * 2 ^ 4) /\
  stream (snd (read_signed Debug 4 (new [Byte.xa5]))) =
    skipn (Z.to_nat 4) (stream (new [Byte.xa5])) /\
  - 2 ^ (4 - 1) <= msb_value (firstn (Z.to_nat 4) (stream (new [Byte.xa5]))) -
                   hd 0 (stream (new [Byte.xa5])) * 2 ^ 4 < 2 ^ (4 - 1).
Proof.
  apply read_signed_twos_complement;
    [lia | apply wf_new | apply Nat.leb_le; vm_compute; reflexivity].
Defined.

(** ** [read_bytes] *)

(** X8: An empty destination: nothing is read, aligned or not. *)
Theorem read_bytes_empty (st : reader) : read_bytes [] st = (ROk tt, st, []).
Proof.
  destruct st as [src [|x buf]]; unfold read_bytes, byte_aligned, read_exact; cbn; reflexivity.
Qed.

(** The buffered bits are the remaining bits modulo 8. *)
Lemma wf_buffer_mod (st : reader) :
  wf st -> length (buffer st) = Nat.modulo (length (stream st)) 8.
Proof.
  intros [_ Hl]. rewrite stream_length. unfold stream_len.
  apply (Nat.mod_unique _ _ (length (source st))); lia.
Qed.

Lemma read_bytes_loop_ok (buf : list Byte.byte) :
  forall st, wf st -> (8 * length buf <= length (stream st))%nat ->
  exists st', read_bytes_loop buf st = (ROk tt, st', chunk_bytes (length buf) (stream st)) /\
              stream st' = skipn (8 * length buf) (stream st) /\ wf st'.
Proof.
  induction buf as [|b buf IH]; intros st Hwf Hn.
  - exists st. auto.
  - cbn [length] in Hn.
    destruct (read_value 8 st Hwf ltac:(lia) ltac:(lia)) as (st1 & Hr & Hs1 & Hw1).
    destruct (IH st1 Hw1) as (st2 & Hq & Hs2 & Hw2);
      [rewrite Hs1, length_skipn; lia|].
    exists st2. cbn [read_bytes_loop length chunk_bytes]. unfold read.
    change (Z.to_nat 8) with 8%nat. rewrite Hr, Hq, Hs1.
    split; [reflexivity|]. split; [|exact Hw2].
    rewrite Hs2, Hs1, skipn_skipn. f_equal. lia.
Qed.

(** X9: On a reader that is not byte-aligned, with enough bits left,
    [read_bytes] fills the destination with the next groups of 8 bits,
    each read as a [u8], and the reader stays off the byte boundary by
    the same number of bits. *)
Theorem read_bytes_unaligned (buf : list Byte.byte) (st : reader) :
  wf st -> byte_aligned st = false -> (8 * length buf <= length (stream st))%nat ->
  exists st', read_bytes buf st = (ROk tt, st', chunk_bytes (length buf) (stream st)) /\
              stream st' = skipn (8 * length buf) (stream st) /\
              length (buffer st') = length (buffer st).
Proof.
  intros Hwf Ha Hn. unfold read_bytes. rewrite Ha.
  destruct (read_bytes_loop_ok buf st Hwf Hn) as (st' & Hq & Hs & Hw).
  exists st'. split; [exact Hq|]. split; [exact Hs|].
  rewrite (wf_buffer_mod st' Hw), (wf_buffer_mod st Hwf), Hs, length_skipn.
  set (n := length (stream st)). set (k := length buf).
  rewrite (Nat.div_mod_eq n 8) at 1.
  replace (8 * (n / 8) + n mod 8 - 8 * k)%nat with (n mod 8 + 8 * (n / 8 - k))%nat.
  - symmetry. apply (Nat.mod_unique _ _ (n / 8 - k)); [apply Nat.mod_upper_bound; lia | lia].
  - assert (k <= n / 8)%nat by (apply Nat.div_le_lower_bound; lia). lia.
Qed.

Lemma read_bytes_unaligned_witness :
  exists st', read_bytes [Byte.x00] (snd (read 4 (new [Byte.xab; Byte.xcd]))) =
                (ROk tt, st', chunk_bytes 1 (stream (snd (read 4 (new [Byte.xab; Byte.xcd]))))) /\
              stream st' = skipn (8 * 1) (stream (snd (read 4 (new [Byte.xab; Byte.xcd])))) /\
              length (buffer st') = length (buffer (snd (read 4 (new [Byte.xab; Byte.xcd])))).
Proof.
  apply (read_bytes_unaligned [Byte.x00] (snd (read 4 (new [Byte.xab; Byte.xcd])))).
  - exact (proj2 (read_stream 4 0 _ (wf_new _))).
  - vm_compute; reflexivity.
  - apply Nat.leb_le; vm_compute; reflexivity.
Defined.

(** ** Reading whole bytes *)

Lemma msb_byte_bits (b : Byte.byte) : msb_value (byte_bits b) = bval b.
Proof. destruct b; vm_compute; reflexivity. Qed.

Lemma msb_flat_map (l : list Byte.byte) (acc : Z) :
  fold_left (fun a x => 2 * a + x) (flat_map byte_bits l) acc =
  fold_left (fun a b => 256 * a + bval b) l acc.
Proof.
  revert acc; induction l as [|b l IH]; intros acc; [reflexivity|].
  cbn [flat_map fold_left]. rewrite fold_left_app, IH. f_equal.
  rewrite msb_fold_shift, byte_bits_length. fold (msb_value (byte_bits b)).
  rewrite msb_byte_bits. change (2 ^ Z.of_nat 8) with 256. lia.
Qed.

Lemma flat_map_firstn (k : nat) (src : list Byte.byte) :
  firstn (8 * k) (flat_map byte_bits src) = flat_map byte_bits (firstn k src).
Proof.
  revert src; induction k as [|k IH]; intros src; [reflexivity|].
  destruct src as [|b src]; [cbn; rewrite ?firstn_nil; reflexivity|].
  replace (8 * S k)%nat with (length (byte_bits b) + 8 * k)%nat
    by (rewrite byte_bits_length; lia).
  cbn [flat_map firstn]. rewrite firstn_app_2, IH. reflexivity.
Qed.

Lemma stream_new (src : list Byte.byte) : stream (new src) = flat_map byte_bits src.
Proof. reflexivity. Qed.

Lemma read_loop_bytes (k : nat) :
  forall acc src, (k <= length src)%nat ->
  snd (read_loop (8 * k) acc (new src)) = new (skipn k src).
Proof.
  induction k as [|k IH]; intros acc src Hk; [reflexivity|].
  destruct src as [|b src]; cbn [length] in Hk; [lia|].
  replace (8 * S k)%nat with (8 + 8 * k)%nat by lia.
  rewrite read_loop_app. unfold bind.
  rewrite read_loop_acc
    by (rewrite stream_length; unfold stream_len; cbn [new buffer source length]; lia).
  change (read_loop 8 0) with (read 8). unfold new at 2. rewrite read8_byte.
  cbn [snd skipn]. apply IH. lia.
Qed.

(** X10: On a byte-aligned reader, a read of [8 * k] bits reads the next [k]
    bytes of the source as a big-endian number, reduced modulo [2^32],
    and leaves the reader byte-aligned after them. *)
Theorem read_aligned_bytes (k : nat) (src : list Byte.byte) :
  (k <= length src)%nat ->
  read (8 * Z.of_nat k) (new src) =
  (ROk (fold_left (fun a b => 256 * a + bval b) (firstn k src) 0 mod 2 ^ 32),
   new (skipn k src)).
Proof.
  intros Hk. unfold read.
  replace (Z.to_nat (8 * Z.of_nat k)) with (8 * k)%nat by lia.
  rewrite read_loop_acc
    by (rewrite stream_length; unfold stream_len; cbn [new buffer source length]; lia).
  rewrite read_loop_bytes by exact Hk.
  rewrite fold_shift_in_mod; [| apply forall_firstn, stream_bits, wf_new | lia].
  rewrite stream_new, flat_map_firstn, msb_flat_map. reflexivity.
Qed.

Lemma read_aligned_bytes_witness :
  read (8 * Z.of_nat 2) (new [Byte.x12; Byte.x34; Byte.x56]) =
  (ROk (fold_left (fun a b => 256 * a + bval b) (firstn 2 [Byte.x12; Byte.x34; Byte.x56]) 0
          mod 2 ^ 32),
   new (skipn 2 [Byte.x12; Byte.x34; Byte.x56])).
Proof. apply read_aligned_bytes. cbn; lia. Defined.

(** ** The unary readers *)

Lemma unary_loop_no_stop (md : build) (stop : Z) (fuel : nat) :
  forall acc st,
  Forall (fun x => x <> stop) (stream st) -> (length (stream st) < fuel)%nat ->
  0 <= acc -> acc + Z.of_nat (length (stream st)) < 2 ^ 32 ->
  unary_loop md stop fuel acc st = (RErr UnexpectedEof, mkReader [] []).
Proof.
  induction fuel as [|fuel IH]; intros acc st Hall Hf Ha Hb; [lia|].
  cbn [unary_loop]. unfold bind at 1.
  destruct (stream st) as [|x l] eqn:Hs.
  - apply stream_nil in Hs. subst st. rewrite read1_eof. reflexivity.
  - destruct (read1_stream st x l Hs) as (st1 & Hr & Hs1 & _). rewrite Hr.
    apply Forall_cons_iff in Hall as [Hx Hl].
    rewrite (proj2 (Z.eqb_neq x stop) Hx). cbn [negb length] in *.
    unfold bind, lift. rewrite add_u32_small by lia.
    apply IH; rewrite ?Hs1; [exact Hl | lia | lia | lia].
Qed.

(** X11: Without a terminating bit left ([0] for [read_unary0], [1] for
    [read_unary1]), a unary read consumes every remaining bit and fails
    with [UnexpectedEof], provided fewer than [2^32] bits remain (the
    counter never overflows). *)
Theorem read_unary_no_stop (md : build) (st : reader) :
  Z.of_nat (length (stream st)) < 2 ^ 32 ->
  (Forall (fun x => x = 1) (stream st) ->
     read_unary0 md st = (RErr UnexpectedEof, mkReader [] [])) /\
  (Forall (fun x => x = 0) (stream st) ->
     read_unary1 md st = (RErr UnexpectedEof, mkReader [] [])).
Proof.
  intros Hlen. split; intros Hall; unfold read_unary0, read_unary1;
    apply unary_loop_no_stop; rewrite ?stream_length; try lia.
  - eapply Forall_impl; [|exact Hall]. cbn. intros x ->. discriminate.
  - rewrite <- stream_length. exact Hlen.
  - eapply Forall_impl; [|exact Hall]. cbn. intros x ->. discriminate.
  - rewrite <- stream_length. exact Hlen.
Qed.

Lemma read_unary_no_stop_witness :
  read_unary0 Debug (new [Byte.xff]) = (RErr UnexpectedEof, mkReader [] []).
Proof.
  apply (proj1 (read_unary_no_stop Debug (new [Byte.xff]) ltac:(vm_compute; reflexivity))).
  cbn. repeat constructor.
Defined.

Lemma unary_loop_result (md : build) (stop : Z) (fuel : nat) :
  is_bit stop -> forall acc st v st',
  wf st -> 0 <= acc < 2 ^ 32 ->
  unary_loop md stop fuel acc st = (ROk v, st') ->
  exists k, stream st = repeat (1 - stop) k ++ stop :: stream st' /\
            v = (acc + Z.of_nat k) mod 2 ^ 32 /\
            (md = Debug -> acc + Z.of_nat k < 2 ^ 32).
Proof.
  intros Hstop. induction fuel as [|fuel IH]; intros acc st v st' Hwf Ha Hr;
    [discriminate|].
  cbn [unary_loop] in Hr. unfold bind at 1 in Hr.
  pose proof (stream_bits st Hwf) as Hbits.
  destruct (stream st) as [|x l] eqn:Hs.
  - apply stream_nil in Hs. subst st. rewrite read1_eof in Hr. discriminate.
  - destruct (read1_stream st x l Hs) as (st1 & Hr1 & Hs1 & Hw1). rewrite Hr1 in Hr.
    specialize (Hw1 Hwf). apply Forall_cons_iff in Hbits as [Hx _].
    destruct (Z.eqb_spec x stop) as [-> | Hne]; cbn [negb] in Hr.
    + unfold ret in Hr. injection Hr as <- <-.
      exists 0%nat. rewrite Z.add_0_r, Z.mod_small by lia. cbn [repeat app].
      rewrite Hs1. split; [reflexivity | split; [reflexivity | intros; lia]].
    + assert (Hxo : x = 1 - stop) by (destruct Hx, Hstop; subst; lia).
      unfold bind, lift, add_u32, checked in Hr.
      destruct (in_u32 (acc + 1)) eqn:Hin.
      * apply andb_prop in Hin as [H1 H2]. apply Z.leb_le in H1. apply Z.ltb_lt in H2.
        destruct (IH (acc + 1) st1 v st' Hw1 ltac:(lia) Hr) as (k & Hk & Hv & Hd).
        exists (S k). cbn [repeat app]. rewrite Hxo, <- Hs1, Hk.
        split; [reflexivity|]. split; [rewrite Hv; f_equal; lia | intros; specialize (Hd H); lia].
      * destruct md; [discriminate|].
        destruct (IH (wrap_u32 (acc + 1)) st1 v st' Hw1
                    ltac:(unfold wrap_u32; apply Z.mod_pos_bound; lia) Hr)
          as (k & Hk & Hv & _).
        exists (S k). cbn [repeat app]. rewrite Hxo, <- Hs1, Hk.
        split; [reflexivity|]. split; [|discriminate].
        rewrite Hv. unfold wrap_u32. rewrite Z.add_mod_idemp_l by lia. f_equal; lia.
Qed.

(** X12: What a successful unary read returns: [read_unary0] has read [k]
    bits [1] and then a [0], and returns [k] modulo [2^32]; [read_unary1]
    has read [k] bits [0] and then a [1].  In a debug build the count
    [k] is below [2^32] (a larger one panics). *)
Theorem read_unary_result (md : build) (st st' : reader) (v : Z) :
  wf st ->
  (read_unary0 md st = (ROk v, st') ->
   exists k, stream st = repeat 1 k ++ 0 :: stream st' /\
             v = Z.of_nat k mod 2 ^ 32 /\ (md = Debug -> Z.of_nat k < 2 ^ 32)) /\
  (read_unary1 md st = (ROk v, st') ->
   exists k, stream st = repeat 0 k ++ 1 :: stream st' /\
             v = Z.of_nat k mod 2 ^ 32 /\ (md = Debug -> Z.of_nat k < 2 ^ 32)).
Proof.
  intros Hwf. split; intros Hr.
  - destruct (unary_loop_result md 0 _ (or_introl eq_refl) 0 st v st' Hwf ltac:(lia) Hr)
      as (k & Hk & Hv & Hd).
    exists k. rewrite Hk. split; [reflexivity|]. split; [exact Hv|].
    intros H. specialize (Hd H). lia.
  - destruct (unary_loop_result md 1 _ (or_intror eq_refl) 0 st v st' Hwf ltac:(lia) Hr)
      as (k & Hk & Hv & Hd).
    exists k. rewrite Hk. split; [reflexivity|]. split; [exact Hv|].
    intros H. specialize (Hd H). lia.
Qed.

Lemma read_unary_result_witness :
  exists k, stream (new [Byte.xe0]) = repeat 1 k ++ 0 :: stream (mkReader [] [0; 0; 0; 0]) /\
            3 = Z.of_nat k mod 2 ^ 32 /\ (Debug = Debug -> Z.of_nat k < 2 ^ 32).
Proof.
  apply (proj1 (read_unary_result Debug (new [Byte.xe0]) (mkReader [] [0; 0; 0; 0]) 3
                  (wf_new _))).
  vm_compute; reflexivity.
Defined.

(** ** [byte_align] *)

(** X13: After any sequence of successful calls on a fresh reader,
    [byte_align] moves the reader to the next byte boundary: if [c] bits
    have been consumed, the reader continues at bit [8 * ceil(c / 8)] of
    the input, i.e. with the first source byte not yet started. *)
Theorem byte_align_next_boundary (md : build) (os : list read_op)
    (src : list Byte.byte) (st' : reader) :
  run_ops md os (new src) = Some st' ->
  exists c, (c <= 8 * length src)%nat /\
    stream st' = skipn c (stream (new src)) /\
    stream (byte_align st') = skipn (8 * ((c + 7) / 8)) (stream (new src)) /\
    source (byte_align st') = source st'.
Proof.
  intros Hrun.
  destruct (run_ops_any md os _ _ Hrun (wf_new src)) as [[_ Hl] [j Hs]].
  assert (Hlen0 : length (stream (new src)) = (8 * length src)%nat)
    by (rewrite stream_length; unfold stream_len; cbn [new buffer source length]; lia).
  set (c := Nat.min j (8 * length src)).
  assert (Hc : stream st' = skipn c (stream (new src))).
  { rewrite Hs. unfold c. destruct (Nat.le_ge_cases j (8 * length src)).
    - rewrite Nat.min_l by assumption. reflexivity.
    - rewrite Nat.min_r by assumption. rewrite !skipn_all2 by lia. reflexivity. }
  exists c. split; [unfold c; lia|]. split; [exact Hc|]. split; [|reflexivity].
  assert (Hlen : (length (buffer st') + 8 * length (source st') = 8 * length src - c)%nat).
  { rewrite <- Hlen0, <- length_skipn, <- Hc, stream_length. reflexivity. }
  assert (Hba : stream (byte_align st') = skipn (length (buffer st')) (stream st')).
  { unfold stream at 2. rewrite skipn_app, skipn_all, Nat.sub_diag. reflexivity. }
  rewrite Hba, Hc, skipn_skipn. f_equal.
  replace ((c + 7) / 8)%nat with (length src - length (source st'))%nat; [lia|].
  apply (Nat.div_unique _ _ _ (7 - length (buffer st'))); lia.
Qed.

Lemma byte_align_next_boundary_witness :
  exists c, (c <= 8 * length [Byte.xab; Byte.xcd])%nat /\
    stream (mkReader [Byte.xcd] [0; 1; 0; 1; 1]) = skipn c (stream (new [Byte.xab; Byte.xcd])) /\
    stream (byte_align (mkReader [Byte.xcd] [0; 1; 0; 1; 1])) =
      skipn (8 * ((c + 7) / 8)) (stream (new [Byte.xab; Byte.xcd])) /\
    source (byte_align (mkReader [Byte.xcd] [0; 1; 0; 1; 1])) =
      source (mkReader [Byte.xcd] [0; 1; 0; 1; 1]).
Proof.
  apply (byte_align_next_boundary Debug [OpRead 3]). vm_compute; reflexivity.
Defined.

(** ** [read_signed] at widths 31 and 32 *)

Lemma as_i32_small (u : Z) : 0 <= u < 2 ^ 31 -> as_i32 u = u.
Proof. intros Hu. unfold as_i32, wrap_i32. rewrite Z.mod_small by lia. lia. Qed.

Lemma signed_of_31 (md : build) (x r : Z) :
  is_bit x -> 0 <= r < 2 ^ 30 ->
  signed_of md 31 (x * 2 ^ 30 + r) =
  if x =? 0 then Some r
  else match md with Debug => None | Release => Some (x * 2 ^ 30 + r - 2 ^ 31) end.
Proof.
  intros Hx Hr.
  assert (Hs : shl_u32 md 1 30 = Some (2 ^ 30)) by reflexivity.
  unfold signed_of, sub_u32. rewrite in_u32_true by lia. unfold checked.
  change (31 - 1) with 30. rewrite Hs.
  rewrite land_pow2_zero, testbit_top by (assumption || lia).
  rewrite as_i32_small by (destruct Hx as [-> | ->]; lia).
  destruct Hx as [-> | ->]; cbn [Z.eqb negb Pos.eqb].
  - f_equal; lia.
  - assert (Ht : shl_i32 md 1 31 = Some (- 2 ^ 31)) by reflexivity.
    rewrite Ht. unfold sub_i32, neg_i32, checked.
    assert (Hf : in_i32 (- 2 ^ 31 - (1 * 2 ^ 30 + r)) = false)
      by (unfold in_i32; rewrite (proj2 (Z.leb_gt _ _)) by lia; reflexivity).
    rewrite Hf. destruct md; [reflexivity|].
    assert (Hw : wrap_i32 (- 2 ^ 31 - (1 * 2 ^ 30 + r)) = 2 ^ 31 - (2 ^ 30 + r)).
    { unfold wrap_i32.
      replace (- 2 ^ 31 - (1 * 2 ^ 30 + r) + 2 ^ 31) with (2 ^ 32 - (2 ^ 30 + r) + (-1) * 2 ^ 32)
        by lia.
      rewrite Z.mod_add, Z.mod_small by lia. lia. }
    rewrite Hw, in_i32_true by lia. f_equal; lia.
Qed.

Lemma signed_of_32 (md : build) (x r : Z) :
  is_bit x -> 0 <= r < 2 ^ 31 ->
  (x = 0 -> signed_of md 32 (x * 2 ^ 31 + r) = Some r) /\
  (x = 1 -> signed_of Debug 32 (x * 2 ^ 31 + r) = None) /\
  (x = 1 -> 2 <= r -> signed_of Release 32 (x * 2 ^ 31 + r) = Some (x * 2 ^ 31 + r - 2 ^ 32 - 1)).
Proof.
  intros Hx Hr.
  assert (Hs : forall md', shl_u32 md' 1 31 = Some (2 ^ 31)) by reflexivity.
  assert (Hpre : forall md', signed_of md' 32 (x * 2 ^ 31 + r) =
    if negb (x =? 1) then Some (as_i32 (x * 2 ^ 31 + r))
    else match shl_i32 md' 1 32 with
         | None => None
         | Some t => match sub_i32 md' t (as_i32 (x * 2 ^ 31 + r)) with
                     | None => None
                     | Some d => neg_i32 md' d
                     end
         end).
  { intros md'. unfold signed_of, sub_u32. rewrite in_u32_true by lia. unfold checked.
    change (32 - 1) with 31. rewrite Hs.
    rewrite land_pow2_zero, testbit_top by (assumption || lia). reflexivity. }
  split; [|split]; intros Hx1; subst x.
  - rewrite Hpre. cbn [Z.eqb negb Pos.eqb]. rewrite as_i32_small by lia. f_equal; lia.
  - rewrite Hpre. reflexivity.
  - intros Hr2. rewrite Hpre. cbn [Z.eqb negb Pos.eqb].
    assert (Ht : shl_i32 Release 1 32 = Some 1) by reflexivity. rewrite Ht.
    assert (Ha : as_i32 (1 * 2 ^ 31 + r) = r - 2 ^ 31).
    { unfold as_i32, wrap_i32.
      replace (1 * 2 ^ 31 + r + 2 ^ 31) with (r + 1 * 2 ^ 32) by lia.
      rewrite Z.mod_add, Z.mod_small by lia. reflexivity. }
    rewrite Ha. unfold sub_i32, neg_i32, checked.
    rewrite in_i32_true by lia. rewrite in_i32_true by lia. f_equal; lia.
Qed.

Lemma read_signed_split (md : build) (n : nat) (bits : Z) (st : reader) :
  wf st -> Z.to_nat bits = S n -> (n < 32)%nat -> (S n <= length (stream st))%nat ->
  exists x r, is_bit x /\ hd 0 (stream st) = x /\ 0 <= r < 2 ^ Z.of_nat n /\
    msb_value (firstn (S n) (stream st)) = x * 2 ^ Z.of_nat n + r /\
    fst (read_signed md bits st) =
      match signed_of md bits (x * 2 ^ Z.of_nat n + r) with
      | Some v => ROk v | None => RPanic end.
Proof.
  intros Hwf Hb Hn32 Hn.
  destruct (read_value (S n) st Hwf ltac:(lia) Hn) as (st' & Hr & _ & _).
  pose proof (stream_bits st Hwf) as Hbits.
  destruct (stream st) as [|x l] eqn:Hst; [cbn in Hn; lia|].
  apply Forall_cons_iff in Hbits as [Hx Hl].
  cbn [firstn hd] in *. rewrite msb_value_cons in *.
  assert (Hlen : length (firstn n l) = n) by (rewrite length_firstn; cbn [length] in Hn; lia).
  pose proof (msb_value_bound _ (forall_firstn _ n _ Hl)) as Hrb. rewrite Hlen in Hrb, Hr |- *.
  exists x, (msb_value (firstn n l)).
  split; [exact Hx|]. split; [reflexivity|]. split; [exact Hrb|]. split; [reflexivity|].
  unfold read_signed, bind, read. rewrite Hb, Hr. unfold lift.
  destruct (signed_of md bits _); reflexivity.
Qed.

(** X14: Width 31: a value whose first bit is [0] is read as it is; one
    whose first bit is [1] panics in a debug build (the subtraction
    [(1 << 31) - u] overflows [i32]) and is decoded as a two's-complement
    number in a release build. *)
Theorem read_signed_31_by_sign (md : build) (st : reader) :
  wf st -> (31 <= length (stream st))%nat ->
  fst (read_signed md 31 st) =
  if hd 0 (stream st) =? 0 then ROk (msb_value (firstn 31 (stream st)))
  else match md with
       | Debug => RPanic
       | Release => ROk (msb_value (firstn 31 (stream st)) - 2 ^ 31)
       end.
Proof.
  intros Hwf Hn.
  destruct (read_signed_split md 30 31 st Hwf eq_refl ltac:(lia) Hn)
    as (x & r & Hx & Hh & Hr & Hv & Hs).
  change (Z.of_nat 30) with 30 in *. change (Z.to_nat 31) with 31%nat.
  rewrite Hs, Hh, Hv, signed_of_31 by assumption.
  destruct Hx as [-> | ->]; cbn [Z.eqb]; [f_equal; lia | destruct md; reflexivity].
Qed.

Lemma read_signed_31_by_sign_witness :
  fst (read_signed Release 31 (new [Byte.xff; Byte.xff; Byte.xff; Byte.xff])) =
  if hd 0 (stream (new [Byte.xff; Byte.xff; Byte.xff; Byte.xff])) =? 0
  then ROk (msb_value (firstn 31 (stream (new [Byte.xff; Byte.xff; Byte.xff; Byte.xff]))))
  else ROk (msb_value (firstn 31 (stream (new [Byte.xff; Byte.xff; Byte.xff; Byte.xff])))
            - 2 ^ 31).
Proof.
  apply (read_signed_31_by_sign Release (new [Byte.xff; Byte.xff; Byte.xff; Byte.xff]));
    [apply wf_new | apply Nat.leb_le; vm_compute; reflexivity].
Defined.

(** X15: Width 32: a value whose first bit is [0] is read as it is; one whose
    first bit is [1] panics in a debug build ([1 << 32] overflows) and,
    in a release build, comes out one below its two's-complement value
    (for values from [2^31 + 2] on), since the shift amount is masked
    and [1 << 32] is [1]. *)
Theorem read_signed_32_by_sign (md : build) (st : reader) :
  wf st -> (32 <= length (stream st))%nat ->
  (hd 0 (stream st) = 0 ->
     fst (read_signed md 32 st) = ROk (msb_value (firstn 32 (stream st)))) /\
  (hd 0 (stream st) = 1 -> fst (read_signed Debug 32 st) = RPanic) /\
  (2 ^ 31 + 2 <= msb_value (firstn 32 (stream st)) ->
     fst (read_signed Release 32 st) = ROk (msb_value (firstn 32 (stream st)) - 2 ^ 32 - 1)).
Proof.
  intros Hwf Hn.
  destruct (read_signed_split md 31 32 st Hwf eq_refl ltac:(lia) Hn)
    as (x & r & Hx & Hh & Hr & Hv & Hs).
  destruct (read_signed_split Debug 31 32 st Hwf eq_refl ltac:(lia) Hn)
    as (x' & r' & _ & Hh' & _ & Hv' & Hs').
  destruct (read_signed_split Release 31 32 st Hwf eq_refl ltac:(lia) Hn)
    as (x'' & r'' & _ & Hh'' & _ & Hv'' & Hs'').
  rewrite Hh in Hh', Hh''. subst x' x''.
  change (Z.of_nat 31) with 31 in *.
  assert (r' = r) by lia. assert (r'' = r) by lia. subst r' r''.
  change (Z.to_nat 32) with 32%nat.
  destruct (signed_of_32 md x r Hx Hr) as (H0 & H1 & _).
  destruct (signed_of_32 Release x r Hx Hr) as (_ & _ & H2).
  rewrite Hh, Hv. split; [|split].
  - intros ->. rewrite Hs, H0 by reflexivity. f_equal; lia.
  - intros ->. rewrite Hs', H1 by reflexivity. reflexivity.
  - intros Hge. destruct Hx as [-> | ->]; [lia|].
    rewrite Hs'', H2 by (reflexivity || lia). reflexivity.
Qed.

Lemma read_signed_32_by_sign_witness :
  fst (read_signed Release 32 (new [Byte.xff; Byte.xff; Byte.xff; Byte.xf0])) =
  ROk (msb_value (firstn 32 (stream (new [Byte.xff; Byte.xff; Byte.xff; Byte.xf0])))
       - 2 ^ 32 - 1).
Proof.
  apply (read_signed_32_by_sign Release (new [Byte.xff; Byte.xff; Byte.xff; Byte.xf0]));
    [apply wf_new | apply Nat.leb_le; vm_compute; reflexivity |
     apply Z.leb_le; vm_compute; reflexivity].
Defined.
